(** * Reliable file transfer over UDP (cn_lab2): packet checksum, receiver,
      sender window and TCP Reno controller.

    The development embeds [common.h], [client.cpp] and [server.cpp] of
    cn_lab2 and states the properties of the protocol core over that
    embedding.

    Conventions.
    - Unsigned C integers are [Z] with the wrap-around written out
      ([u16], [u32]).  Operations whose result C++ leaves undefined (the
      conversion of an out-of-range [double] to [uint32_t], the overflow
      of an [int]) return [None].
    - The packed [struct Packet] is a record; [packet_image] is its byte
      layout in memory (little-endian host, [#pragma pack(1)]).  The six
      header fields take 16 bytes, while [HEADER_SIZE] is 20.
    - A [Packet*] that is read as raw memory ([reinterpret_cast]) is read
      through [packet_mem]: the image of the object followed by whatever
      memory follows it ([beyond]).  The code reads and sends
      [HEADER_SIZE + data_len] bytes from the start of the object, four
      more than header and payload occupy.
    - The memory at [&recv_packet] (and at [&ack_packet]) is an [area] of
      [MAX_BUFFER_SIZE] bytes, the object and the four bytes after it that
      [recvfrom] may write; it keeps its contents from one datagram to the
      next, and is taken not to overlap the other variables.
    - [double] arithmetic on [cwnd] is rational arithmetic followed by a
      rounding function [fl], about which the proofs assume only
      monotonicity and exactness on the integers up to 2^53.
    - The mutex makes the block of the ACK thread and the body of the
      main loop atomic with respect to each other: a run of the sender is
      a sequence of such blocks.  Clock readings are inputs of a block. *)

From Stdlib Require Import ZArith QArith Qround Lia Lqa.
From Stdlib.Strings Require Import Byte.
From stdpp Require Import base option list gmap fin_maps sorting.
From Equations Require Import Equations.

Open Scope Z_scope.

(** ** Machine integers *)

Definition u16 (z : Z) : Z := z mod 2 ^ 16.
Definition u32 (z : Z) : Z := z mod 2 ^ 32.

(** ** Bytes *)

Definition byte_val (b : byte) : Z := Z.of_N (Byte.to_N b).

Definition byte_of_Z (z : Z) : byte :=
  match Byte.of_N (Z.to_N (z mod 256)) with
  | Some b => b
  | None => x00
  end.

(** Little-endian layout of a 16-bit and of a 32-bit field. *)
Definition le16 (z : Z) : list byte :=
  [byte_of_Z z; byte_of_Z (z / 2 ^ 8)].

Definition le32 (z : Z) : list byte :=
  [byte_of_Z z; byte_of_Z (z / 2 ^ 8); byte_of_Z (z / 2 ^ 16); byte_of_Z (z / 2 ^ 24)].

(** ** Protocol constants

    The repository carries two copies of [common.h]. *)

(** First copy (the one with the English comments). *)
Module Common1.
Definition SERVER_PORT : Z := 8888.
Definition MAX_BUFFER_SIZE : Z := 1500.
Definition HEADER_SIZE : Z := 20.
Definition MAX_DATA_SIZE : Z := MAX_BUFFER_SIZE - HEADER_SIZE.
Definition FLOW_CONTROL_WINDOW_SIZE : Z := 20.
Definition PACKET_TIMEOUT_MS : Z := 500.
End Common1.

(** Second copy (the one that also declares [ROUTER_PORT], which
    [client.cpp] uses). *)
Module Common2.
Definition SERVER_PORT : Z := 8888.
Definition ROUTER_PORT : Z := 12345.
Definition MAX_BUFFER_SIZE : Z := 1500.
Definition HEADER_SIZE : Z := 20.
Definition MAX_DATA_SIZE : Z := MAX_BUFFER_SIZE - HEADER_SIZE.
Definition FLOW_CONTROL_WINDOW_SIZE : Z := 64.
Definition PACKET_TIMEOUT_MS : Z := 1000.
End Common2.

(** The constants on which both copies agree are used unqualified. *)
Definition SERVER_PORT : Z := 8888.
Definition MAX_BUFFER_SIZE : Z := 1500.
Definition HEADER_SIZE : Z := 20.
Definition MAX_DATA_SIZE : Z := MAX_BUFFER_SIZE - HEADER_SIZE.

(** [enum Flags] *)
Definition SYN : Z := Z.shiftl 1 0.
Definition ACK : Z := Z.shiftl 1 1.
Definition FIN : Z := Z.shiftl 1 2.

(** ** The packet *)

(** [struct Packet], packed: four 16-bit fields after two 32-bit fields,
    then the payload array. *)
Record Packet := mkPacket {
  seq_num : Z;
  ack_num : Z;
  flags : Z;
  window_size : Z;
  data_len : Z;
  checksum : Z;
  data : list byte
}.

(** [Packet p = { 0 }] *)
Definition zero_packet : Packet :=
  mkPacket 0 0 0 0 0 0 (replicate (Z.to_nat MAX_DATA_SIZE) x00).

Definition set_seq_num (v : Z) (p : Packet) : Packet :=
  mkPacket (u32 v) (ack_num p) (flags p) (window_size p) (data_len p) (checksum p) (data p).
Definition set_ack_num (v : Z) (p : Packet) : Packet :=
  mkPacket (seq_num p) (u32 v) (flags p) (window_size p) (data_len p) (checksum p) (data p).
Definition set_flags (v : Z) (p : Packet) : Packet :=
  mkPacket (seq_num p) (ack_num p) (u16 v) (window_size p) (data_len p) (checksum p) (data p).
Definition set_data_len (v : Z) (p : Packet) : Packet :=
  mkPacket (seq_num p) (ack_num p) (flags p) (window_size p) (u16 v) (checksum p) (data p).
Definition set_data (d : list byte) (p : Packet) : Packet :=
  mkPacket (seq_num p) (ack_num p) (flags p) (window_size p) (data_len p) (checksum p) d.

(** A store to the [checksum] field of an object whose other fields are
    left alone.  The value stored is the one given: callers store either
    [0], a value read from the same field, or the result of
    [calculate_checksum], which is a [uint16_t]. *)
Definition set_checksum (v : Z) (p : Packet) : Packet :=
  mkPacket (seq_num p) (ack_num p) (flags p) (window_size p) (data_len p) v (data p).

(** Size of the six header fields in the packed layout. *)
Definition PACKED_HEADER_BYTES : nat := 16.

(** The bytes of a [Packet] object, in address order. *)
Definition packet_image (p : Packet) : list byte :=
  le32 (seq_num p) ++ le32 (ack_num p) ++ le16 (flags p) ++
  le16 (window_size p) ++ le16 (data_len p) ++ le16 (checksum p) ++ data p.

(** Memory as seen through a [Packet*]: offset [i] from the start of the
    object.  Offsets past the object read the memory that follows it. *)
Definition packet_mem (beyond : nat -> byte) (p : Packet) (i : nat) : byte :=
  match packet_image p !! i with
  | Some b => b
  | None => beyond (i - length (packet_image p))%nat
  end.

(** [*p] for [const uint16_t* p] at byte offset [off]. *)
Definition read_u16 (mem : nat -> byte) (off : nat) : Z :=
  byte_val (mem off) + 2 ^ 8 * byte_val (mem (S off)).

(** [*reinterpret_cast<const uint8_t*>(p)] *)
Definition read_u8 (mem : nat -> byte) (off : nat) : Z :=
  byte_val (mem off).

(** ** [calculate_checksum] *)

(** [while (size > 1) { sum += *p++; size -= 2; }] on the loop state
    (offset of [p], [size], [sum]); [sum] is a [uint32_t]. *)
Fixpoint sum_words_loop (fuel : nat) (mem : nat -> byte) (p : nat) (size sum : Z)
  : nat * Z * Z :=
  match fuel with
  | O => (p, size, sum)
  | S fuel' =>
      if 1 <? size
      then sum_words_loop fuel' mem (p + 2)%nat (size - 2) (u32 (sum + read_u16 mem p))
      else (p, size, sum)
  end.

(** [while (sum >> 16) sum = (sum & 0xFFFF) + (sum >> 16);] *)
Fixpoint fold_loop (fuel : nat) (sum : Z) : Z :=
  match fuel with
  | O => sum
  | S fuel' =>
      if Z.shiftr sum 16 =? 0
      then sum
      else fold_loop fuel' (u32 (Z.land sum 65535 + Z.shiftr sum 16))
  end.

(** Two rounds fold any 32-bit sum (lemma [fold_loop_exit]). *)
Definition FOLD_FUEL : nat := 2.

(** The function returns its result together with the packet object as it
    is left in memory: the [const_cast] stores are part of the code. *)
Definition calculate_checksum (beyond : nat -> byte) (packet : Packet) : Z * Packet :=
  let sum := 0 in
  let size := HEADER_SIZE + data_len packet in
  let original_checksum := checksum packet in
  let packet0 := set_checksum 0 packet in
  let mem := packet_mem beyond packet0 in
  let '(p, size, sum) := sum_words_loop (Z.to_nat size) mem 0%nat size sum in
  let sum := if 0 <? size then u32 (sum + read_u8 mem p) else sum in
  let sum := fold_loop FOLD_FUEL sum in
  let packet1 := set_checksum original_checksum packet0 in
  (u16 (u32 (Z.lnot sum)), packet1).

(** [verify_checksum] *)
Definition verify_checksum (beyond : nat -> byte) (packet : Packet) : bool :=
  fst (calculate_checksum beyond packet) =? checksum packet.

(** ** The checksum algorithm in the words of the specification

    Section 4.1: the region of [20 + data_len] bytes with the checksum
    field taken as zero, read as 16-bit little-endian words; an odd final
    byte is the low byte of a last word; the words are summed into a
    32-bit accumulator; carries are folded while the high 16 bits are
    nonzero; the checksum is the complement of the folded 16-bit value. *)

Definition checksum_region (beyond : nat -> byte) (p : Packet) : list byte :=
  map (packet_mem beyond (set_checksum 0 p))
      (seq 0 (Z.to_nat (HEADER_SIZE + data_len p))).

Fixpoint spec_words (bs : list byte) : list Z :=
  match bs with
  | [] => []
  | [b] => [byte_val b]
  | b0 :: b1 :: rest => (byte_val b0 + 2 ^ 8 * byte_val b1) :: spec_words rest
  end.

Definition spec_sum32 (ws : list Z) : Z :=
  fold_left (fun acc w => u32 (acc + w)) ws 0.

Equations? spec_fold (sum : Z) : Z by wf (Z.to_nat sum) lt :=
  spec_fold sum with Z_lt_le_dec 0 (Z.shiftr sum 16) := {
    | left _ => spec_fold (Z.land sum 65535 + Z.shiftr sum 16);
    | right _ => sum }.
Proof.
  rewrite Z.shiftr_div_pow2 in * by lia.
  change 65535 with (Z.ones 16). rewrite Z.land_ones by lia.
  assert (0 <= sum).
  { destruct (Z_lt_le_dec sum 0); [|lia]. exfalso.
    assert (sum / 2 ^ 16 < 0) by (apply Z.div_lt_upper_bound; lia). lia. }
  pose proof (Z.div_mod sum (2 ^ 16) ltac:(lia)).
  pose proof (Z.mod_pos_bound sum (2 ^ 16) ltac:(lia)).
  lia.
Qed.

Definition spec_checksum (beyond : nat -> byte) (p : Packet) : Z :=
  Z.lxor (spec_fold (spec_sum32 (spec_words (checksum_region beyond p)))) 65535.

(** ** Datagram input and output *)

(** Size of a [Packet] object: 16 header bytes and [MAX_DATA_SIZE] payload
    bytes. *)
Definition SIZEOF_PACKET : nat := (PACKED_HEADER_BYTES + Z.to_nat MAX_DATA_SIZE)%nat.

(** [recvfrom(sock, (char* )&pkt, MAX_BUFFER_SIZE, ...)] on the memory
    [area] at [&pkt].  The datagram overwrites the first bytes of the area
    and the rest keeps its contents.  Winsock reports a datagram longer
    than the buffer as an error after filling the buffer. *)
Definition recvfrom (area dgram : list byte) : list byte * Z :=
  let written := take (Z.to_nat MAX_BUFFER_SIZE) dgram in
  (written ++ drop (length written) area,
   if Z.of_nat (length dgram) <=? MAX_BUFFER_SIZE then Z.of_nat (length dgram) else -1).

Definition get_u8 (area : list byte) (off : nat) : Z :=
  match area !! off with
  | Some b => byte_val b
  | None => 0
  end.

Definition get_u16 (area : list byte) (off : nat) : Z :=
  get_u8 area off + 2 ^ 8 * get_u8 area (off + 1).

Definition get_u32 (area : list byte) (off : nat) : Z :=
  get_u16 area off + 2 ^ 16 * get_u16 area (off + 2).

(** The [Packet] object that lies at the start of [area]. *)
Definition packet_of_area (area : list byte) : Packet :=
  mkPacket (get_u32 area 0) (get_u32 area 4) (get_u16 area 8) (get_u16 area 10)
           (get_u16 area 12) (get_u16 area 14)
           (take (Z.to_nat MAX_DATA_SIZE) (drop PACKED_HEADER_BYTES area)).

(** The memory after that object: the rest of the area, then [stack]. *)
Definition area_beyond (stack : nat -> byte) (area : list byte) (i : nat) : byte :=
  match area !! (SIZEOF_PACKET + i)%nat with
  | Some b => b
  | None => stack (i - (length area - SIZEOF_PACKET))%nat
  end.

(** [sendto(sock, (const char* )&pkt, len, ...)]: the datagram is the first
    [len] bytes of memory at [&pkt]. *)
Definition sendto (beyond : nat -> byte) (p : Packet) (len : Z) : list byte :=
  map (packet_mem beyond p) (seq 0 (Z.to_nat len)).

(** [out.write(pkt.data, pkt.data_len)]: [data_len] bytes from the address
    of the [data] member. *)
Definition payload_bytes (beyond : nat -> byte) (p : Packet) : list byte :=
  map (packet_mem beyond p) (seq PACKED_HEADER_BYTES (Z.to_nat (data_len p))).

(** [(x & FLAG)] used as a condition. *)
Definition has_flag (x flag : Z) : bool := negb (Z.land x flag =? 0).

(** [send_packet = {0}; send_packet.flags = f; send_packet.ack_num = a;
     send_packet.checksum = calculate_checksum(&send_packet);] *)
Definition control_packet (stack : nat -> byte) (f seq ack : Z) : Packet :=
  let send_packet := zero_packet in
  let send_packet := set_flags f send_packet in
  let send_packet := set_seq_num seq send_packet in
  let send_packet := set_ack_num ack send_packet in
  let '(c, send_packet) := calculate_checksum stack send_packet in
  set_checksum c send_packet.

(** ** The receiver ([server.cpp]) *)

Inductive Control := Continue | Break.

Record Receiver := mkReceiver {
  recv_area : list byte;
  expected_seq_num : Z;
  receive_buffer : gmap Z Packet;
  output_file : list byte;
  total_packets_received : Z;
  out_of_order_packets : Z
}.

(** State at the start of the receive loop; [area] is the memory at
    [&recv_packet] as the handshake left it. *)
Definition receiver_init (area : list byte) : Receiver :=
  mkReceiver area 1 ∅ [] 0 0.

(** [while (receive_buffer.count(expected_seq_num)) { ... }] *)
Fixpoint drain_loop (fuel : nat) (stack : nat -> byte) (expected : Z)
    (buffer : gmap Z Packet) (out : list byte) : Z * gmap Z Packet * list byte :=
  match fuel with
  | O => (expected, buffer, out)
  | S fuel' =>
      match buffer !! expected with
      | Some buffered_packet =>
          drain_loop fuel' stack (u32 (expected + 1)) (delete expected buffer)
                     (out ++ payload_bytes stack buffered_packet)
      | None => (expected, buffer, out)
      end
  end.

(** The three-way branch on the sequence number of an accepted data
    packet. *)
Definition deliver (stack : nat -> byte) (r : Receiver) (recv_packet : Packet)
    (beyond : nat -> byte) : Receiver :=
  if seq_num recv_packet =? expected_seq_num r then
    let out := output_file r ++ payload_bytes beyond recv_packet in
    let expected := u32 (expected_seq_num r + 1) in
    let '(expected, buffer, out) :=
      drain_loop (size (receive_buffer r)) stack expected (receive_buffer r) out in
    mkReceiver (recv_area r) expected buffer out
               (total_packets_received r) (out_of_order_packets r)
  else if expected_seq_num r <? seq_num recv_packet then
    mkReceiver (recv_area r) (expected_seq_num r)
               (<[seq_num recv_packet := recv_packet]> (receive_buffer r))
               (output_file r) (total_packets_received r)
               (u32 (out_of_order_packets r + 1))
  else r.

(** One iteration of the receive loop on one incoming datagram: the new
    state, the datagrams sent, and whether the loop goes on. *)
Definition receiver_step (stack : nat -> byte) (r : Receiver) (dgram : list byte)
  : Receiver * list (list byte) * Control :=
  let '(area, recv_len) := recvfrom (recv_area r) dgram in
  let r := mkReceiver area (expected_seq_num r) (receive_buffer r) (output_file r)
                      (total_packets_received r) (out_of_order_packets r) in
  if recv_len <=? 0 then (r, [], Continue)
  else
    let recv_packet := packet_of_area area in
    let beyond := area_beyond stack area in
    if negb (verify_checksum beyond recv_packet) then (r, [], Continue)
    else if has_flag (flags recv_packet) FIN then
      let send_packet :=
        control_packet stack (Z.lor ACK FIN) 0 (seq_num recv_packet + 1) in
      (r, [sendto stack send_packet HEADER_SIZE], Break)
    else
      let r := mkReceiver area (expected_seq_num r) (receive_buffer r) (output_file r)
                          (u32 (total_packets_received r + 1)) (out_of_order_packets r) in
      let r := deliver stack r recv_packet beyond in
      let send_packet := control_packet stack ACK 0 (expected_seq_num r - 1) in
      (r, [sendto stack send_packet HEADER_SIZE], Continue).

(** The receive loop over the datagrams that arrive, in order. *)
Fixpoint receiver_loop (stack : nat -> byte) (r : Receiver) (dgrams : list (list byte))
  : Receiver * list (list byte) :=
  match dgrams with
  | [] => (r, [])
  | d :: ds =>
      let '(r', out, c) := receiver_step stack r d in
      match c with
      | Break => (r', out)
      | Continue =>
          let '(r'', out') := receiver_loop stack r' ds in
          (r'', out ++ out')
      end
  end.

(** The handshake of the receiver.  [area] is the uninitialised memory at
    [&recv_packet]; [syn] and [ack] are the first two datagrams that
    arrive (the second is read only after a SYN).  Result: the memory at
    [&recv_packet], the datagrams sent, and whether "Connection
    established" was reached. *)
Definition server_handshake (stack : nat -> byte) (area : list byte)
    (syn ack : list byte) : list byte * list (list byte) * bool :=
  let '(area, _) := recvfrom area syn in
  let recv_packet := packet_of_area area in
  if has_flag (flags recv_packet) SYN then
    let send_packet :=
      control_packet stack (Z.lor SYN ACK) 0 (seq_num recv_packet + 1) in
    let sent := [sendto stack send_packet HEADER_SIZE] in
    let '(area, _) := recvfrom area ack in
    let recv_packet := packet_of_area area in
    (area, sent, has_flag (flags recv_packet) ACK)
  else (area, [], false).

(** The handshake of the sender: SYN out, one datagram in, then the final
    ACK if the datagram's flags are exactly SYN|ACK.  [recv_packet] starts
    as [{0}]. *)
Definition client_handshake (stack : nat -> byte) (synack : list byte)
  : list (list byte) :=
  let send_packet := control_packet stack SYN 0 0 in
  let sent := [sendto stack send_packet HEADER_SIZE] in
  let '(area, _) := recvfrom (packet_image zero_packet) synack in
  let recv_packet := packet_of_area area in
  if flags recv_packet =? Z.lor SYN ACK then
    let send_packet := control_packet stack ACK 0 (seq_num recv_packet + 1) in
    sent ++ [sendto stack send_packet HEADER_SIZE]
  else sent.

(** ** The sender ([client.cpp]) *)

Inductive CongestionState := SLOW_START | CONGESTION_AVOIDANCE | FAST_RECOVERY.

Record PacketState := mkPacketState {
  packet : Packet;
  send_time : Z;
  acked : bool
}.

(** The TCP Reno globals. *)
Record Reno := mkReno {
  cwnd : Q;
  ssthresh : Z;
  state : CongestionState;
  duplicate_ack_count : Z
}.

(** The globals shared by the two threads, the counters, the cursor
    [bytes_sent_total] of the main loop, and the memory [ack_area] at
    [&ack_packet] in the ACK thread. *)
Record Sender := mkSender {
  send_window : gmap Z PacketState;
  send_base : Z;
  next_seq_num : Z;
  transmission_complete : bool;
  retransmit_seq_num : Z;
  reno : Reno;
  total_packets_sent : Z;
  total_retransmissions : Z;
  total_acks_received : Z;
  bytes_sent_total : Z;
  ack_area : list byte
}.

Definition reno_init : Reno := mkReno 1 16 SLOW_START 0.

Definition sender_init (area : list byte) : Sender :=
  mkSender ∅ 1 1 false 0 reno_init 0 0 0 0 area.

Definition set_window (w : gmap Z PacketState) (s : Sender) : Sender :=
  mkSender w (send_base s) (next_seq_num s) (transmission_complete s)
           (retransmit_seq_num s) (reno s) (total_packets_sent s)
           (total_retransmissions s) (total_acks_received s) (bytes_sent_total s)
           (ack_area s).

Definition set_reno (r : Reno) (s : Sender) : Sender :=
  mkSender (send_window s) (send_base s) (next_seq_num s) (transmission_complete s)
           (retransmit_seq_num s) r (total_packets_sent s)
           (total_retransmissions s) (total_acks_received s) (bytes_sent_total s)
           (ack_area s).

Definition set_retransmit_seq_num (v : Z) (s : Sender) : Sender :=
  mkSender (send_window s) (send_base s) (next_seq_num s) (transmission_complete s)
           v (reno s) (total_packets_sent s)
           (total_retransmissions s) (total_acks_received s) (bytes_sent_total s)
           (ack_area s).

Definition set_send_base (v : Z) (s : Sender) : Sender :=
  mkSender (send_window s) v (next_seq_num s) (transmission_complete s)
           (retransmit_seq_num s) (reno s) (total_packets_sent s)
           (total_retransmissions s) (total_acks_received s) (bytes_sent_total s)
           (ack_area s).

Definition set_ack_area (a : list byte) (s : Sender) : Sender :=
  mkSender (send_window s) (send_base s) (next_seq_num s) (transmission_complete s)
           (retransmit_seq_num s) (reno s) (total_packets_sent s)
           (total_retransmissions s) (total_acks_received s) (bytes_sent_total s)
           a.

Definition count_ack (s : Sender) : Sender :=
  mkSender (send_window s) (send_base s) (next_seq_num s) (transmission_complete s)
           (retransmit_seq_num s) (reno s) (total_packets_sent s)
           (total_retransmissions s) (u32 (total_acks_received s + 1))
           (bytes_sent_total s) (ack_area s).

Definition count_retransmission (s : Sender) : Sender :=
  mkSender (send_window s) (send_base s) (next_seq_num s) (transmission_complete s)
           (retransmit_seq_num s) (reno s) (total_packets_sent s)
           (u32 (total_retransmissions s + 1)) (total_acks_received s)
           (bytes_sent_total s) (ack_area s).

(** [(std::max)(a, b)] and [(std::min)(a, b)] on [double]. *)
Definition std_max (a b : Q) : Q := if Qle_bool b a then a else b.
Definition std_min (a b : Q) : Q := if Qle_bool a b then a else b.

(** Conversion of a [double] to [uint32_t]: truncation toward zero,
    undefined when the truncated value is not a [uint32_t]. *)
Definition double_to_u32 (x : Q) : option Z :=
  let t := if Qle_bool 0 x then Qfloor x else Qceiling x in
  if (0 <=? t) && (t <? 2 ^ 32) then Some t else None.

(** [n++] on an [int]: undefined on overflow. *)
Definition int_incr (n : Z) : option Z :=
  if n <? 2 ^ 31 - 1 then Some (n + 1) else None.

(** Order of iteration over a [std::map]: increasing keys. *)
Definition key_le (a b : Z * PacketState) : Prop := a.1 <= b.1.

#[global] Instance key_le_dec : RelDecision key_le.
Proof. intros a b. unfold key_le. apply Z_le_dec. Defined.

Definition sorted_entries (w : gmap Z PacketState) : list (Z * PacketState) :=
  merge_sort key_le (map_to_list w).

Inductive SenderEvent :=
| EvAck (dgram : list byte)
| EvMain (clock : Z -> Z).

Section SenderModel.

(** Rounding of a real result to [double]. *)
Variable fl : Q -> Q.
(** Memory after a local [Packet] object of either thread. *)
Variable stack : nat -> byte.
(** Memory after the [packet] member of an entry of the send window: the
    other members of the entry, then the heap. *)
Variable entry_beyond : PacketState -> nat -> byte.
(** Ticks of [steady_clock] per millisecond. *)
Variable ticks_per_ms : Z.
(** The file to send. *)
Variable file_buffer : list byte.

(** *** The ACK thread *)

(** Window adjustment on a new ACK, by state. *)
Definition reno_new_ack (r : Reno) : Reno :=
  match state r with
  | FAST_RECOVERY =>
      mkReno (inject_Z (ssthresh r)) (ssthresh r) CONGESTION_AVOIDANCE
             (duplicate_ack_count r)
  | SLOW_START =>
      let c := fl (cwnd r + 1) in
      mkReno c (ssthresh r)
             (if Qle_bool (inject_Z (ssthresh r)) c then CONGESTION_AVOIDANCE
              else SLOW_START)
             (duplicate_ack_count r)
  | CONGESTION_AVOIDANCE =>
      mkReno (fl (cwnd r + fl (1 / cwnd r))) (ssthresh r) CONGESTION_AVOIDANCE
             (duplicate_ack_count r)
  end.

(** The branch [acked_num >= send_base]. *)
Definition on_new_ack (acked_num : Z) (s : Sender) : Sender :=
  let r := mkReno (cwnd (reno s)) (ssthresh (reno s)) (state (reno s)) 0 in
  let s := set_send_base (u32 (acked_num + 1)) (set_reno r s) in
  let s := set_window
             (filter (fun kv : Z * PacketState => acked_num < kv.1) (send_window s)) s in
  set_reno (reno_new_ack (reno s)) s.

(** The branch [acked_num < send_base]. *)
Definition on_dup_ack (s : Sender) : option Sender :=
  let r := reno s in
  dup ← int_incr (duplicate_ack_count r);
  let r := mkReno (cwnd r) (ssthresh r) (state r) dup in
  match state r with
  | FAST_RECOVERY =>
      Some (set_reno (mkReno (fl (cwnd r + 1)) (ssthresh r) (state r) dup) s)
  | _ =>
      if dup =? 3 then
        ss ← double_to_u32 (std_max 2 (fl (cwnd r / 2)));
        let r := mkReno (inject_Z (u32 (ss + 3))) ss FAST_RECOVERY dup in
        Some (set_retransmit_seq_num (send_base s) (set_reno r s))
      else Some (set_reno r s)
  end.

(** The block under the lock in [receive_acks]. *)
Definition handle_ack (acked_num : Z) (s : Sender) : option Sender :=
  let s := count_ack s in
  if send_base s <=? acked_num then Some (on_new_ack acked_num s)
  else on_dup_ack s.

(** One iteration of the loop of [receive_acks] on one datagram. *)
Definition receive_acks_step (s : Sender) (dgram : list byte) : option Sender :=
  let '(area, recv_len) := recvfrom (ack_area s) dgram in
  let s := set_ack_area area s in
  if 0 <? recv_len then
    let ack_packet := packet_of_area area in
    if verify_checksum (area_beyond stack area) ack_packet
       && has_flag (flags ack_packet) ACK
    then handle_ack (ack_num ack_packet) s
    else Some s
  else Some s.

(** *** The main loop *)

(** [ps.packet.checksum = calculate_checksum(&ps.packet); sendto(...,
    &ps.packet, HEADER_SIZE + ps.packet.data_len, ...); ps.send_time = now;] *)
Definition retransmit (now : Z) (ps : PacketState) : PacketState * list byte :=
  let '(c, pk) := calculate_checksum (entry_beyond ps) (packet ps) in
  let ps := mkPacketState (set_checksum c pk) (send_time ps) (acked ps) in
  let dgram := sendto (entry_beyond ps) (packet ps) (HEADER_SIZE + data_len (packet ps)) in
  (mkPacketState (packet ps) now (acked ps), dgram).

(** The reaction of the controller to a timeout. *)
Definition reno_timeout (r : Reno) : option Reno :=
  ss ← double_to_u32 (std_max 2 (fl (cwnd r / 2)));
  Some (mkReno 1 ss SLOW_START 0).

Definition timed_out (now : Z) (ps : PacketState) : bool :=
  Common2.PACKET_TIMEOUT_MS <? Z.quot (now - send_time ps) ticks_per_ms.

(** Body of [for (auto& pair : send_window)] for one entry. *)
Definition timeout_entry (clock : Z -> Z)
    (acc : option (Sender * list (list byte))) (kv : Z * PacketState)
  : option (Sender * list (list byte)) :=
  '(s, out) ← acc;
  let now := clock kv.1 in
  if timed_out now kv.2 then
    let '(ps, dgram) := retransmit now kv.2 in
    let s := count_retransmission (set_window (<[kv.1 := ps]> (send_window s)) s) in
    r ← reno_timeout (reno s);
    Some (set_reno r s, out ++ [dgram])
  else Some (s, out).

Definition timeout_scan (clock : Z -> Z) (s : Sender)
  : option (Sender * list (list byte)) :=
  fold_left (timeout_entry clock) (sorted_entries (send_window s)) (Some (s, [])).

(** Step 1 of the loop body: fast retransmit, or else the timeout scan. *)
Definition retransmit_step (clock : Z -> Z) (s : Sender)
  : option (Sender * list (list byte)) :=
  let fast_retransmit_target := retransmit_seq_num s in
  let s := set_retransmit_seq_num 0 s in
  match (if 0 <? fast_retransmit_target
         then send_window s !! fast_retransmit_target else None) with
  | Some ps =>
      let '(ps, dgram) := retransmit (clock fast_retransmit_target) ps in
      Some (count_retransmission
              (set_window (<[fast_retransmit_target := ps]> (send_window s)) s),
            [dgram])
  | None => timeout_scan clock s
  end.

(** The condition of the admission loop:
    [send_window.size() < (std::min)((double)FLOW_CONTROL_WINDOW_SIZE, cwnd)
     && bytes_sent_total < file_buffer.size()]. *)
Definition window_open (s : Sender) : bool :=
  negb (Qle_bool (std_min (inject_Z Common2.FLOW_CONTROL_WINDOW_SIZE) (cwnd (reno s)))
                 (inject_Z (Z.of_nat (size (send_window s)))))
  && (bytes_sent_total s <? Z.of_nat (length file_buffer)).

(** Body of the admission loop. *)
Definition send_new_packet (clock : Z -> Z) (s : Sender) : Sender * list byte :=
  let data_to_send :=
    Z.min MAX_DATA_SIZE (Z.of_nat (length file_buffer) - bytes_sent_total s) in
  let new_packet := zero_packet in
  let new_packet := set_seq_num (next_seq_num s) new_packet in
  let new_packet := set_data_len data_to_send new_packet in
  let chunk := take (Z.to_nat data_to_send)
                    (drop (Z.to_nat (bytes_sent_total s)) file_buffer) in
  let new_packet := set_data (chunk ++ drop (length chunk) (data new_packet)) new_packet in
  let '(c, new_packet) := calculate_checksum stack new_packet in
  let new_packet := set_checksum c new_packet in
  let dgram := sendto stack new_packet (HEADER_SIZE + data_to_send) in
  let ps := mkPacketState new_packet (clock (next_seq_num s)) false in
  (mkSender (<[next_seq_num s := ps]> (send_window s)) (send_base s)
            (u32 (next_seq_num s + 1)) (transmission_complete s)
            (retransmit_seq_num s) (reno s) (u32 (total_packets_sent s + 1))
            (total_retransmissions s) (total_acks_received s)
            (bytes_sent_total s + data_to_send) (ack_area s),
   dgram).

(** Step 2 of the loop body: [while (window_open) send_new_packet]. *)
Fixpoint new_data_loop (fuel : nat) (clock : Z -> Z) (s : Sender)
  : Sender * list (list byte) :=
  match fuel with
  | O => (s, [])
  | S fuel' =>
      if window_open s then
        let '(s, dgram) := send_new_packet clock s in
        let '(s, out) := new_data_loop fuel' clock s in
        (s, dgram :: out)
      else (s, [])
  end.

(** Every round of the admission loop sends at least one byte of the
    file, so the number of bytes left bounds the number of rounds. *)
Definition new_data_fuel (s : Sender) : nat :=
  Z.to_nat (Z.of_nat (length file_buffer) - bytes_sent_total s).

Definition new_data_step (clock : Z -> Z) (s : Sender) : Sender * list (list byte) :=
  new_data_loop (new_data_fuel s) clock s.

(** The condition of the main loop. *)
Definition main_loop_cond (s : Sender) : bool :=
  (bytes_sent_total s <? Z.of_nat (length file_buffer))
  || negb (bool_decide (send_window s = ∅)).

(** The body of the main loop, from taking the lock to the timed wait. *)
Definition main_body (clock : Z -> Z) (s : Sender)
  : option (Sender * list (list byte)) :=
  '(s, out1) ← retransmit_step clock s;
  let '(s, out2) := new_data_step clock s in
  Some (s, out1 ++ out2).

(** After the loop: [transmission_complete = true] and the FIN. *)
Definition main_exit (s : Sender) : Sender * list (list byte) :=
  let send_packet := control_packet stack FIN (next_seq_num s) 0 in
  (mkSender (send_window s) (send_base s) (next_seq_num s) true
            (retransmit_seq_num s) (reno s) (total_packets_sent s)
            (total_retransmissions s) (total_acks_received s) (bytes_sent_total s)
            (ack_area s),
   [sendto stack send_packet HEADER_SIZE]).

(** One turn of the main thread: a loop iteration, or the exit from the
    loop; nothing once the FIN has been sent. *)
Definition main_step (clock : Z -> Z) (s : Sender)
  : option (Sender * list (list byte)) :=
  if transmission_complete s then Some (s, [])
  else if main_loop_cond s then main_body clock s
  else Some (main_exit s).

(** *** Runs of the sender

    The lock makes the block of the ACK thread and the body of the main
    loop atomic with respect to each other, so a run is a sequence of
    such blocks.  [None] stands for undefined behaviour. *)
Definition sender_step (s : Sender) (e : SenderEvent) : option Sender :=
  match e with
  | EvAck dgram => receive_acks_step s dgram
  | EvMain clock => fst <$> main_step clock s
  end.

Definition sender_run (s : Sender) (events : list SenderEvent) : option Sender :=
  foldl (fun acc e => s ← acc; sender_step s e) (Some s) events.

End SenderModel.

(** ** Predicates and example data used in the statements *)

(** What the receive loop maintains: the cursor is a [uint32_t] and every
    buffered key is a [uint32_t] above it. *)
Definition buffer_inv (r : Receiver) : Prop :=
  0 <= expected_seq_num r < 2 ^ 32 /\
  map_Forall (fun k _ => expected_seq_num r < k < 2 ^ 32) (receive_buffer r).

(** The cap of the admission loop, as the code computes it. *)
Definition effective_window (s : Sender) : Q :=
  std_min (inject_Z Common2.FLOW_CONTROL_WINDOW_SIZE) (cwnd (reno s)).

Definition zero_mem : nat -> byte := fun _ => x00.

(** A data packet as the sender builds it. *)
Definition data_packet (seq : Z) (payload : list byte) : Packet :=
  let p := set_data_len (Z.of_nat (length payload)) (set_seq_num seq zero_packet) in
  let p := set_data (payload ++ drop (length payload) (data p)) p in
  set_checksum (fst (calculate_checksum zero_mem p)) p.

Definition data_dgram (seq : Z) (payload : list byte) : list byte :=
  sendto zero_mem (data_packet seq payload) (HEADER_SIZE + Z.of_nat (length payload)).

Definition zero_area : list byte := replicate (Z.to_nat MAX_BUFFER_SIZE) x00.


(** The state of the receiver after the data packet 1 with payload "A". *)
Definition after_packet_1 : Receiver :=
  (receiver_step zero_mem (receiver_init zero_area) (data_dgram 1 ["A"%byte])).1.1.

(** The 16 header bytes of a packet 2 that announces one byte of payload
    and carries none. *)
Definition header_only_dgram : list byte := take 16 (data_dgram 2 ["A"%byte]).

(** A SYN, a SYN-ACK, an ACK, a FIN or a FIN-ACK whose checksum field is
    wrong (zero). *)
Definition corrupt_control (f : Z) : list byte :=
  sendto zero_mem (set_checksum 0 (set_flags f zero_packet)) HEADER_SIZE.


(** A run of the block of the ACK thread on a sequence of ACK numbers. *)
Definition handle_acks (fl : Q -> Q) (acks : list Z) (s : Sender) : option Sender :=
  foldl (fun acc a => s ← acc; handle_ack fl a s) (Some s) acks.

(** Number of datagrams handed to the ACK thread in a run. *)
Fixpoint count_acks (events : list SenderEvent) : Z :=
  match events with
  | [] => 0
  | EvAck _ :: es => 1 + count_acks es
  | EvMain _ :: es => count_acks es
  end.

(** The congestion variables after [n] datagrams for the ACK thread: the
    two bounds of the controller, and the room that keeps the integer
    conversions defined. *)
Definition reno_inv (n : Z) (r : Reno) : Prop :=
  (1 <= cwnd r)%Q /\ (cwnd r <= inject_Z (n + 16))%Q /\
  2 <= ssthresh r <= n + 16 /\
  0 <= duplicate_ack_count r <= n.

(** Exact arithmetic, for runs whose values [double] represents exactly. *)
Definition exact : Q -> Q := fun q => q.

(** The ACK that the receiver sends for [n]. *)
Definition ack_dgram (n : Z) : list byte :=
  sendto zero_mem (control_packet zero_mem ACK 0 n) HEADER_SIZE.

(** A file of five packets (4 * 1480 < 6000 <= 5 * 1480). *)
Definition five_packet_file : list byte := replicate (Z.to_nat 6000) x00.

(** A run that reaches congestion avoidance with [cwnd = 5/2]: packet 1 is
    sent and times out ([ssthresh] becomes 2), ACK 1 arrives ([cwnd = 2],
    congestion avoidance), packets 2 and 3 are sent, ACK 2 arrives
    ([cwnd = 2 + 1/2]), and the main loop runs once more. *)
Definition fractional_run : list SenderEvent :=
  [EvMain (fun _ => 0); EvMain (fun _ => 1001); EvAck (ack_dgram 1);
   EvMain (fun _ => 2000); EvAck (ack_dgram 2); EvMain (fun _ => 2000)].

(** A run in which a timeout shrinks [cwnd] under a full window: packet 1
    is sent, ACK 1 arrives ([cwnd = 2]), packets 2 and 3 are sent, and both
    time out before the next turn of the main loop ([cwnd = 1]). *)
Definition timeout_run : list SenderEvent :=
  [EvMain (fun _ => 0); EvAck (ack_dgram 1); EvMain (fun _ => 0);
   EvMain (fun _ => 1001)].

Definition run_example (events : list SenderEvent) : option Sender :=
  sender_run exact zero_mem (fun _ => zero_mem) 1 five_packet_file
             (sender_init zero_area) events.

(** A sender outside fast recovery that has seen two duplicate ACKs, with
    [cwnd = 5]. *)
Definition two_duplicates_state : Sender :=
  set_reno (mkReno 5 16 SLOW_START 2) (sender_init zero_area).
(** * Properties *)

(** ** Machine integers and bytes *)

Lemma u16_range z : 0 <= u16 z < 2 ^ 16.
Proof. unfold u16. apply Z.mod_pos_bound. lia. Qed.

Lemma u32_range z : 0 <= u32 z < 2 ^ 32.
Proof. unfold u32. apply Z.mod_pos_bound. lia. Qed.

Lemma u16_small z : 0 <= z < 2 ^ 16 -> u16 z = z.
Proof. intros. unfold u16. apply Z.mod_small. lia. Qed.

Lemma u32_small z : 0 <= z < 2 ^ 32 -> u32 z = z.
Proof. intros. unfold u32. apply Z.mod_small. lia. Qed.

Lemma u16_u32 z : u16 (u32 z) = u16 z.
Proof.
  unfold u16, u32.
  apply Z.mod_mod_divide. exists (2 ^ 16). reflexivity.
Qed.

Lemma byte_val_range b : 0 <= byte_val b < 256.
Proof.
  unfold byte_val. pose proof (Byte.to_N_bounded b). lia.
Qed.

Lemma byte_val_of_Z z : byte_val (byte_of_Z z) = z mod 256.
Proof.
  unfold byte_val, byte_of_Z.
  pose proof (Z.mod_pos_bound z 256 ltac:(lia)) as Hr.
  destruct (Byte.of_N (Z.to_N (z mod 256))) as [b|] eqn:E.
  - apply Byte.to_of_N in E. rewrite E. lia.
  - apply Byte.of_N_None_iff in E. lia.
Qed.

Lemma byte_of_Z_val b : byte_of_Z (byte_val b) = b.
Proof.
  unfold byte_of_Z, byte_val.
  pose proof (Byte.to_N_bounded b) as Hb.
  rewrite Z.mod_small by lia.
  rewrite N2Z.id, Byte.of_to_N. reflexivity.
Qed.

Lemma read_u16_range mem off : 0 <= read_u16 mem off < 2 ^ 16.
Proof.
  unfold read_u16.
  pose proof (byte_val_range (mem off)).
  pose proof (byte_val_range (mem (S off))).
  lia.
Qed.

(** ** The checksum *)

Lemma set_checksum_twice c d p : set_checksum c (set_checksum d p) = set_checksum c p.
Proof. reflexivity. Qed.

Lemma set_checksum_same p : set_checksum (checksum p) p = p.
Proof. destruct p. reflexivity. Qed.

(** The result does not depend on the contents of the checksum field. *)
Lemma calculate_checksum_field beyond p c :
  fst (calculate_checksum beyond (set_checksum c p)) =
  fst (calculate_checksum beyond (set_checksum 0 p)).
Proof.
  unfold calculate_checksum. rewrite !set_checksum_twice. cbn [data_len set_checksum].
  destruct (sum_words_loop _ _ _ _ _) as [[q sz] sm]. reflexivity.
Qed.

(** The object is left as it was found. *)
Lemma calculate_checksum_restores beyond p :
  snd (calculate_checksum beyond p) = p.
Proof.
  unfold calculate_checksum.
  destruct (sum_words_loop _ _ _ _ _) as [[q sz] sm]. cbn [snd].
  rewrite set_checksum_twice. apply set_checksum_same.
Qed.

Lemma calculate_checksum_range beyond p :
  0 <= fst (calculate_checksum beyond p) < 2 ^ 16.
Proof.
  unfold calculate_checksum.
  destruct (sum_words_loop _ _ _ _ _) as [[q sz] sm]. cbn [fst].
  apply u16_range.
Qed.

(** The word loop leaves by its test when the fuel is the size. *)
Lemma sum_words_loop_exit fuel mem p size sum :
  (Z.to_nat size <= fuel)%nat ->
  (sum_words_loop fuel mem p size sum).1.2 <= 1.
Proof.
  revert p size sum. induction fuel as [|fuel IH]; intros p size sum Hf; cbn.
  - lia.
  - destruct (1 <? size) eqn:E.
    + apply Z.ltb_lt in E. apply IH. lia.
    + apply Z.ltb_ge in E. cbn. lia.
Qed.

Lemma seq_two off n :
  (2 <= n)%nat -> seq off n = off :: S off :: seq (off + 2) (n - 2).
Proof.
  intros H. destruct n as [|[|n]]; try lia.
  cbn [seq]. replace (S (S n) - 2)%nat with n by lia.
  replace (off + 2)%nat with (S (S off)) by lia. reflexivity.
Qed.

(** The word loop and the odd byte compute the 32-bit sum of the words of
    the region. *)
Lemma sum_words_loop_spec fuel mem p size sum :
  (Z.to_nat size <= fuel)%nat ->
  (let '(q, sz, sm) := sum_words_loop fuel mem p size sum in
   if 0 <? sz then u32 (sm + read_u8 mem q) else sm) =
  fold_left (fun acc w => u32 (acc + w))
            (spec_words (map mem (seq p (Z.to_nat size)))) sum.
Proof.
  revert p size sum. induction fuel as [|fuel IH]; intros p size sum Hf.
  - cbn [sum_words_loop]. assert (Z.to_nat size = 0%nat) as -> by lia.
    destruct (0 <? size) eqn:E; [apply Z.ltb_lt in E; lia | reflexivity].
  - cbn [sum_words_loop]. destruct (1 <? size) eqn:E.
    + apply Z.ltb_lt in E.
      rewrite (seq_two p (Z.to_nat size)) by lia.
      cbn [map spec_words fold_left].
      replace (Z.to_nat size - 2)%nat with (Z.to_nat (size - 2)) by lia.
      rewrite <- IH by lia. reflexivity.
    + apply Z.ltb_ge in E. destruct (0 <? size) eqn:E0.
      * apply Z.ltb_lt in E0. assert (size = 1) as -> by lia. reflexivity.
      * apply Z.ltb_ge in E0. assert (Z.to_nat size = 0%nat) as -> by lia.
        reflexivity.
Qed.

Lemma spec_sum32_range ws acc :
  0 <= acc < 2 ^ 32 ->
  0 <= fold_left (fun acc w => u32 (acc + w)) ws acc < 2 ^ 32.
Proof.
  revert acc. induction ws as [|w ws IH]; intros acc Hacc; cbn [fold_left].
  - exact Hacc.
  - apply IH, u32_range.
Qed.

Lemma shiftr16_zero_iff x : 0 <= x -> (Z.shiftr x 16 = 0 <-> x < 2 ^ 16).
Proof.
  intros Hx. rewrite Z.shiftr_div_pow2 by lia. split; intros H.
  - pose proof (Z.div_mod x (2 ^ 16) ltac:(lia)).
    pose proof (Z.mod_pos_bound x (2 ^ 16) ltac:(lia)). lia.
  - apply Z.div_small. lia.
Qed.

Lemma fold_round_range x :
  0 <= x < 2 ^ 32 ->
  0 <= Z.land x 65535 + Z.shiftr x 16 <= 2 ^ 17 - 2 /\
  (x <= 2 ^ 17 - 2 -> 2 ^ 16 <= x -> Z.land x 65535 + Z.shiftr x 16 < 2 ^ 16).
Proof.
  intros Hx.
  change 65535 with (Z.ones 16). rewrite Z.land_ones by lia.
  rewrite Z.shiftr_div_pow2 by lia.
  pose proof (Z.div_mod x (2 ^ 16) ltac:(lia)).
  pose proof (Z.mod_pos_bound x (2 ^ 16) ltac:(lia)).
  assert (0 <= x / 2 ^ 16 < 2 ^ 16).
  { split; [apply Z.div_pos; lia | apply Z.div_lt_upper_bound; lia]. }
  split; [lia|]. intros H17 H16.
  assert (x / 2 ^ 16 = 1) by (apply Z.le_antisymm;
    [ assert (x / 2 ^ 16 < 2) by (apply Z.div_lt_upper_bound; lia); lia
    | apply Z.div_le_lower_bound; lia ]).
  lia.
Qed.

(** The carry loop leaves by its test within [FOLD_FUEL] rounds. *)
Lemma fold_loop_exit x :
  0 <= x < 2 ^ 32 -> 0 <= fold_loop FOLD_FUEL x < 2 ^ 16.
Proof.
  intros Hx. unfold FOLD_FUEL. cbn [fold_loop].
  destruct (Z.shiftr x 16 =? 0) eqn:E.
  - apply Z.eqb_eq, shiftr16_zero_iff in E; lia.
  - apply Z.eqb_neq in E. rewrite shiftr16_zero_iff in E by lia.
    pose proof (fold_round_range x Hx) as [Hr _].
    rewrite (u32_small (Z.land x 65535 + Z.shiftr x 16)) by lia.
    set (y := Z.land x 65535 + Z.shiftr x 16) in *.
    destruct (Z.shiftr y 16 =? 0) eqn:E1.
    + apply Z.eqb_eq, shiftr16_zero_iff in E1; lia.
    + apply Z.eqb_neq in E1. rewrite shiftr16_zero_iff in E1 by lia.
      pose proof (fold_round_range y ltac:(lia)) as [Hr1 Hr2].
      rewrite u32_small by lia. specialize (Hr2 ltac:(lia) ltac:(lia)). lia.
Qed.

Lemma spec_fold_small x : 0 <= x < 2 ^ 16 -> spec_fold x = x.
Proof.
  intros Hx. simp spec_fold.
  destruct (Z_lt_le_dec 0 (Z.shiftr x 16)) as [H|H]; cbn; [|reflexivity].
  pose proof (proj2 (shiftr16_zero_iff x ltac:(lia)) ltac:(lia)). lia.
Qed.

(** The carry loop of the code and the fold of the specification agree on
    every 32-bit sum. *)
Lemma fold_loop_spec x : 0 <= x < 2 ^ 32 -> fold_loop FOLD_FUEL x = spec_fold x.
Proof.
  intros Hx. unfold FOLD_FUEL. cbn [fold_loop].
  destruct (Z.shiftr x 16 =? 0) eqn:E.
  - apply Z.eqb_eq, shiftr16_zero_iff in E; [|lia].
    symmetry. apply spec_fold_small. lia.
  - apply Z.eqb_neq in E.
    assert (2 ^ 16 <= x) as Hx16 by (rewrite shiftr16_zero_iff in E by lia; lia).
    pose proof (fold_round_range x Hx) as [Hr _].
    rewrite (u32_small (Z.land x 65535 + Z.shiftr x 16)) by lia.
    rewrite (spec_fold_equation_1 x).
    destruct (Z_lt_le_dec 0 (Z.shiftr x 16)) as [H|H]; cbn.
    2:{ assert (0 <= Z.shiftr x 16) by (apply Z.shiftr_nonneg; lia). lia. }
    set (y := Z.land x 65535 + Z.shiftr x 16) in *.
    destruct (Z.shiftr y 16 =? 0) eqn:E1.
    + apply Z.eqb_eq, shiftr16_zero_iff in E1; [|lia].
      symmetry. apply spec_fold_small. lia.
    + apply Z.eqb_neq in E1.
      assert (2 ^ 16 <= y) by (rewrite shiftr16_zero_iff in E1 by lia; lia).
      pose proof (fold_round_range y ltac:(lia)) as [Hr1 Hr2].
      specialize (Hr2 ltac:(lia) ltac:(lia)).
      rewrite u32_small by lia.
      rewrite (spec_fold_equation_1 y).
      destruct (Z_lt_le_dec 0 (Z.shiftr y 16)) as [H'|H']; cbn.
      2:{ assert (0 <= Z.shiftr y 16) by (apply Z.shiftr_nonneg; lia). lia. }
      symmetry. apply spec_fold_small. lia.
Qed.

(** [static_cast<uint16_t>(~sum)] is the 16-bit complement of a folded
    sum. *)
Lemma complement16 s : 0 <= s < 2 ^ 16 -> u16 (u32 (Z.lnot s)) = Z.lxor s 65535.
Proof.
  intros Hs. rewrite u16_u32. unfold u16.
  apply Z.bits_inj'. intros n Hn.
  change 65535 with (Z.ones 16). rewrite Z.lxor_spec.
  destruct (Z_lt_le_dec n 16) as [Hlt|Hge].
  - rewrite Z.mod_pow2_bits_low by lia.
    rewrite Z.lnot_spec by lia.
    rewrite Z.ones_spec_low by lia.
    destruct (Z.testbit s n); reflexivity.
  - rewrite Z.mod_pow2_bits_high by lia.
    rewrite Z.ones_spec_high by lia.
    rewrite <- (Z.mod_small s (2 ^ 16)) by lia.
    rewrite Z.mod_pow2_bits_high by lia. reflexivity.
Qed.

Lemma calculate_checksum_spec beyond p :
  fst (calculate_checksum beyond p) = spec_checksum beyond p.
Proof.
  unfold calculate_checksum, spec_checksum, spec_sum32, checksum_region.
  pose proof (sum_words_loop_spec
                (Z.to_nat (HEADER_SIZE + data_len p))
                (packet_mem beyond (set_checksum 0 p)) 0
                (HEADER_SIZE + data_len p) 0 ltac:(lia)) as Hs.
  destruct (sum_words_loop _ _ _ _ _) as [[q sz] sm]. cbn [fst].
  rewrite Hs.
  set (ws := spec_words _).
  pose proof (spec_sum32_range ws 0 ltac:(lia)) as Hr.
  rewrite <- fold_loop_spec by exact Hr.
  apply complement16. apply fold_loop_exit. exact Hr.
Qed.

Lemma verify_after_set beyond p :
  verify_checksum beyond (set_checksum (fst (calculate_checksum beyond p)) p) = true.
Proof.
  unfold verify_checksum. rewrite calculate_checksum_field.
  rewrite <- (calculate_checksum_field beyond p (checksum p)).
  rewrite set_checksum_same. apply Z.eqb_refl.
Qed.

(** When the region lies inside the object, the checksum does not depend
    on the memory after it. *)
Lemma calculate_checksum_local beyond beyond' p :
  (Z.to_nat (HEADER_SIZE + data_len p) <= length (packet_image p))%nat ->
  fst (calculate_checksum beyond p) = fst (calculate_checksum beyond' p).
Proof.
  intros Hlen. rewrite !calculate_checksum_spec. unfold spec_checksum.
  do 4 f_equal. unfold checksum_region. apply map_ext_in.
  intros i Hi. apply in_seq in Hi. unfold packet_mem.
  assert (length (packet_image (set_checksum 0 p)) = length (packet_image p)) as Hl
    by (unfold packet_image; rewrite !length_app; reflexivity).
  destruct (packet_image (set_checksum 0 p) !! i) eqn:E; [reflexivity|].
  apply lookup_ge_None in E. lia.
Qed.

(** C10. The result of [calculate_checksum] is the same whatever value
    the checksum field holds (the field is read as zero), and the call
    leaves every field of the packet, the checksum field included, as it
    was. *)
Theorem calculate_checksum_frame :
  forall (beyond : nat -> byte) (P : Packet) (c : Z),
    fst (calculate_checksum beyond (set_checksum c P)) =
    fst (calculate_checksum beyond (set_checksum 0 P)) /\
    snd (calculate_checksum beyond (set_checksum c P)) = set_checksum c P.
Proof.
  intros beyond P c. split.
  - apply calculate_checksum_field.
  - apply calculate_checksum_restores.
Qed.

(** ** The constants *)

(** C9. The constants of the second copy of [common.h] and the initial
    values of the controller are the stated ones; the first copy declares
    [FLOW_CONTROL_WINDOW_SIZE = 20] and [PACKET_TIMEOUT_MS = 500] and
    agrees on the other four. *)
Theorem header_copies_constants :
  (Common2.SERVER_PORT = 8888 /\ Common2.MAX_BUFFER_SIZE = 1500 /\
   Common2.HEADER_SIZE = 20 /\ Common2.MAX_DATA_SIZE = 1480 /\
   Common2.FLOW_CONTROL_WINDOW_SIZE = 64 /\ Common2.PACKET_TIMEOUT_MS = 1000) /\
  (ssthresh reno_init = 16 /\ cwnd reno_init = 1%Q) /\
  (Common1.SERVER_PORT = 8888 /\ Common1.MAX_BUFFER_SIZE = 1500 /\
   Common1.HEADER_SIZE = 20 /\ Common1.MAX_DATA_SIZE = 1480) /\
  (Common1.FLOW_CONTROL_WINDOW_SIZE = 20 /\ Common1.PACKET_TIMEOUT_MS = 500) /\
  Common1.FLOW_CONTROL_WINDOW_SIZE <> Common2.FLOW_CONTROL_WINDOW_SIZE /\
  Common1.PACKET_TIMEOUT_MS <> Common2.PACKET_TIMEOUT_MS.
Proof. repeat split; discriminate. Qed.

(** ** The receiver *)

Lemma get_u8_range area off : 0 <= get_u8 area off < 2 ^ 8.
Proof.
  unfold get_u8. destruct (area !! off) as [b|]; [apply byte_val_range | lia].
Qed.

Lemma get_u16_range area off : 0 <= get_u16 area off < 2 ^ 16.
Proof.
  unfold get_u16.
  pose proof (get_u8_range area off). pose proof (get_u8_range area (off + 1)). lia.
Qed.

Lemma get_u32_range area off : 0 <= get_u32 area off < 2 ^ 32.
Proof.
  unfold get_u32.
  pose proof (get_u16_range area off). pose proof (get_u16_range area (off + 2)). lia.
Qed.

Lemma packet_of_area_seq_range area : 0 <= seq_num (packet_of_area area) < 2 ^ 32.
Proof. apply get_u32_range. Qed.

(** The drain loop leaves by its test when the fuel is the size of the
    buffer, and leaves only keys above the cursor. *)
Lemma drain_loop_inv fuel stack e (b : gmap Z Packet) out :
  (size b <= fuel)%nat ->
  0 <= e < 2 ^ 32 ->
  map_Forall (fun k _ => e <= k < 2 ^ 32) b ->
  let '(e', b', _) := drain_loop fuel stack e b out in
  0 <= e' < 2 ^ 32 /\
  map_Forall (fun k _ => e' < k < 2 ^ 32) b' /\
  b' !! e' = None.
Proof.
  revert e b out. induction fuel as [|fuel IH]; intros e b out Hsz He Hb.
  - cbn [drain_loop]. assert (b = ∅) as -> by (apply map_size_empty_inv; lia).
    split; [exact He|]. split; [apply map_Forall_empty | apply lookup_empty].
  - cbn [drain_loop]. destruct (b !! e) as [bp|] eqn:E.
    + apply IH.
      * rewrite map_size_delete_Some by eauto. lia.
      * apply u32_range.
      * apply map_Forall_lookup. intros k x Hk.
        apply lookup_delete_Some in Hk as [Hne Hk].
        rewrite map_Forall_lookup in Hb. specialize (Hb k x Hk).
        assert (e + 1 < 2 ^ 32) by lia.
        rewrite u32_small by lia. lia.
    + split; [exact He|]. split; [|exact E].
      apply map_Forall_lookup. intros k x Hk.
      rewrite map_Forall_lookup in Hb. specialize (Hb k x Hk).
      assert (k <> e) by (intros ->; congruence). lia.
Qed.

Lemma deliver_inv stack r recv_packet beyond :
  0 <= seq_num recv_packet < 2 ^ 32 ->
  buffer_inv r -> buffer_inv (deliver stack r recv_packet beyond).
Proof.
  intros Hseq [He Hb]. unfold deliver.
  destruct (seq_num recv_packet =? expected_seq_num r) eqn:E1.
  - pose proof (drain_loop_inv (size (receive_buffer r)) stack
                  (u32 (expected_seq_num r + 1)) (receive_buffer r)
                  (output_file r ++ payload_bytes beyond recv_packet)
                  ltac:(lia) (u32_range _)) as Hd.
    destruct (drain_loop _ _ _ _ _) as [[e' b'] out'].
    destruct Hd as (He' & Hb' & _).
    + apply map_Forall_lookup. intros k x Hk.
      rewrite map_Forall_lookup in Hb. specialize (Hb k x Hk).
      rewrite u32_small by lia. lia.
    + split; assumption.
  - destruct (expected_seq_num r <? seq_num recv_packet) eqn:E2.
    + apply Z.ltb_lt in E2. split; [exact He|]. cbn.
      apply map_Forall_insert_2; [lia | exact Hb].
    + split; assumption.
Qed.

Lemma receiver_step_inv stack r dgram :
  buffer_inv r -> buffer_inv (receiver_step stack r dgram).1.1.
Proof.
  intros Hr. unfold receiver_step.
  destruct (recvfrom (recv_area r) dgram) as [area recv_len].
  destruct (recv_len <=? 0); [exact Hr|].
  destruct (negb (verify_checksum _ _)); [exact Hr|].
  destruct (has_flag _ FIN); [exact Hr|]. cbn [fst].
  apply deliver_inv; [apply packet_of_area_seq_range | exact Hr].
Qed.

Lemma receiver_loop_inv stack r dgrams :
  buffer_inv r -> buffer_inv (receiver_loop stack r dgrams).1.
Proof.
  revert r. induction dgrams as [|d ds IH]; intros r Hr; cbn [receiver_loop].
  - exact Hr.
  - pose proof (receiver_step_inv stack r d Hr) as Hs.
    destruct (receiver_step stack r d) as [[r' out] c]. cbn [fst] in Hs.
    destruct c.
    + specialize (IH r' Hs). destruct (receiver_loop stack r' ds) as [r'' out'].
      exact IH.
    + exact Hs.
Qed.

(** C2. In every state the receive loop reaches from its initial state,
    whatever datagrams arrive, every key of the receive buffer is strictly
    greater than [expected_seq_num]. *)
Theorem receive_buffer_above_expected :
  forall (stack : nat -> byte) (area : list byte) (dgrams : list (list byte)),
    let r := (receiver_loop stack (receiver_init area) dgrams).1 in
    map_Forall (fun k _ => expected_seq_num r < k) (receive_buffer r).
Proof.
  intros stack area dgrams r.
  assert (buffer_inv r) as [_ Hb].
  { apply receiver_loop_inv. split; [cbn; lia | apply map_Forall_empty]. }
  eapply map_Forall_impl; [exact Hb|]. cbn. intros; lia.
Qed.

Lemma le16_value z :
  byte_val (byte_of_Z z) + 2 ^ 8 * byte_val (byte_of_Z (z / 2 ^ 8)) = u16 z.
Proof.
  rewrite !byte_val_of_Z. unfold u16.
  change (2 ^ 16) with (256 * 256). rewrite Z.rem_mul_r by lia. reflexivity.
Qed.

Lemma le32_value z :
  (byte_val (byte_of_Z z) + 2 ^ 8 * byte_val (byte_of_Z (z / 2 ^ 8))) +
  2 ^ 16 * (byte_val (byte_of_Z (z / 2 ^ 16)) + 2 ^ 8 * byte_val (byte_of_Z (z / 2 ^ 24))) =
  u32 z.
Proof.
  rewrite le16_value.
  replace (z / 2 ^ 24) with (z / 2 ^ 16 / 2 ^ 8)
    by (rewrite Z.div_div by lia; reflexivity).
  rewrite le16_value. unfold u16, u32.
  change (2 ^ 32) with (2 ^ 16 * 2 ^ 16). rewrite Z.rem_mul_r by lia. reflexivity.
Qed.

(** The header fields of a packet can be read back from the datagram that
    [sendto] makes of it. *)
Lemma sendto_header_fields beyond p :
  let d := sendto beyond p HEADER_SIZE in
  flags (packet_of_area d) = u16 (flags p) /\
  ack_num (packet_of_area d) = u32 (ack_num p) /\
  seq_num (packet_of_area d) = u32 (seq_num p).
Proof.
  unfold sendto. change (Z.to_nat HEADER_SIZE) with 20%nat.
  cbn [seq map]. unfold packet_of_area, get_u32, get_u16, get_u8.
  cbn [flags ack_num seq_num lookup list_lookup Nat.add].
  unfold packet_mem, packet_image, le32, le16.
  cbn [app lookup list_lookup].
  rewrite le16_value, !le32_value. auto.
Qed.

Lemma control_packet_eq stack f s a :
  let p0 := set_ack_num a (set_seq_num s (set_flags f zero_packet)) in
  control_packet stack f s a = set_checksum (fst (calculate_checksum stack p0)) p0.
Proof.
  intros p0. unfold control_packet. fold p0.
  pose proof (calculate_checksum_restores stack p0) as Hr.
  destruct (calculate_checksum stack p0) as [c q]. cbn [fst snd] in *.
  rewrite Hr. reflexivity.
Qed.

Lemma control_packet_fields stack f s a :
  flags (control_packet stack f s a) = u16 f /\
  seq_num (control_packet stack f s a) = u32 s /\
  ack_num (control_packet stack f s a) = u32 a /\
  data_len (control_packet stack f s a) = 0 /\
  verify_checksum stack (control_packet stack f s a) = true.
Proof.
  rewrite control_packet_eq. cbn [flags seq_num ack_num data_len set_checksum
    set_ack_num set_seq_num set_flags zero_packet].
  repeat split. apply verify_after_set.
Qed.

Lemma u32_idem z : u32 (u32 z) = u32 z.
Proof. apply u32_small, u32_range. Qed.

Lemma u16_idem z : u16 (u16 z) = u16 z.
Proof. apply u16_small, u16_range. Qed.

(** The iteration of the receive loop on an accepted data packet. *)
Lemma receiver_step_data stack r dgram :
  let area := (recvfrom (recv_area r) dgram).1 in
  let recv_len := (recvfrom (recv_area r) dgram).2 in
  let recv_packet := packet_of_area area in
  0 < recv_len ->
  verify_checksum (area_beyond stack area) recv_packet = true ->
  has_flag (flags recv_packet) FIN = false ->
  let r' :=
    deliver stack
      (mkReceiver area (expected_seq_num r) (receive_buffer r) (output_file r)
                  (u32 (total_packets_received r + 1)) (out_of_order_packets r))
      recv_packet (area_beyond stack area) in
  receiver_step stack r dgram =
  (r', [sendto stack (control_packet stack ACK 0 (expected_seq_num r' - 1)) HEADER_SIZE],
   Continue).
Proof.
  intros area recv_len recv_packet Hlen Hver Hfin r'.
  subst r'. unfold receiver_step. subst area recv_len recv_packet.
  destruct (recvfrom (recv_area r) dgram) as [area recv_len]. cbn [fst snd] in *.
  destruct (recv_len <=? 0) eqn:E; [apply Z.leb_le in E; lia|].
  rewrite Hver, Hfin. reflexivity.
Qed.

(** C4. For every datagram that the receive loop accepts as a data packet
    (something was received, the checksum verifies, FIN is not set), in
    order, out of order or old, the iteration sends exactly one datagram:
    the 20-byte packet with [flags = ACK] and
    [ack_num = expected_seq_num - 1] (in [uint32_t] arithmetic), where
    [expected_seq_num] is the value after the delivery and the drain of
    the buffer that this packet caused.  A packet whose sequence number is
    below [expected_seq_num] changes neither the cursor, nor the buffer,
    nor the output file, so it is acknowledged again with the same
    number. *)
Theorem ack_for_every_data_packet :
  forall (stack : nat -> byte) (r : Receiver) (dgram : list byte),
    let area := (recvfrom (recv_area r) dgram).1 in
    let recv_len := (recvfrom (recv_area r) dgram).2 in
    let recv_packet := packet_of_area area in
    0 < recv_len ->
    verify_checksum (area_beyond stack area) recv_packet = true ->
    has_flag (flags recv_packet) FIN = false ->
    let r' := (receiver_step stack r dgram).1.1 in
    let ack := sendto stack (control_packet stack ACK 0 (expected_seq_num r' - 1))
                      HEADER_SIZE in
    receiver_step stack r dgram = (r', [ack], Continue) /\
    flags (packet_of_area ack) = ACK /\
    ack_num (packet_of_area ack) = u32 (expected_seq_num r' - 1) /\
    (seq_num recv_packet < expected_seq_num r ->
     expected_seq_num r' = expected_seq_num r /\
     receive_buffer r' = receive_buffer r /\
     output_file r' = output_file r).
Proof.
  intros stack r dgram area recv_len recv_packet Hlen Hver Hfin r' ack.
  pose proof (receiver_step_data stack r dgram Hlen Hver Hfin) as Hstep.
  cbn zeta in Hstep. fold area recv_packet in Hstep.
  subst ack r'. rewrite Hstep. cbn [fst].
  set (d := deliver _ _ _ _) in *.
  split; [reflexivity|].
  pose proof (sendto_header_fields stack
    (control_packet stack ACK 0 (expected_seq_num d - 1))) as (Hf & Ha & _).
  cbn zeta in Hf, Ha.
  pose proof (control_packet_fields stack ACK 0 (expected_seq_num d - 1))
    as (Hf' & _ & Ha' & _).
  split; [rewrite Hf, Hf', u16_idem; reflexivity|].
  split; [rewrite Ha, Ha', u32_idem; reflexivity|].
  intros Hold. subst d. unfold deliver. cbn [seq_num expected_seq_num].
  destruct (seq_num recv_packet =? expected_seq_num r) eqn:E1;
    [apply Z.eqb_eq in E1; lia|].
  destruct (expected_seq_num r <? seq_num recv_packet) eqn:E2;
    [apply Z.ltb_lt in E2; lia|].
  cbn. auto.
Qed.

(** C8, as the code has it.  The receive loop drops a datagram, without
    delivery and without a reply, exactly when [recvfrom] returns nothing
    or the checksum over the first [20 + data_len] bytes at [&recv_packet]
    does not verify; otherwise it replies.  No test on the received length
    is made. *)
Theorem receiver_drops_only_on_checksum :
  forall (stack : nat -> byte) (r : Receiver) (dgram : list byte),
    let area := (recvfrom (recv_area r) dgram).1 in
    let recv_len := (recvfrom (recv_area r) dgram).2 in
    let recv_packet := packet_of_area area in
    let dropped :=
      (mkReceiver area (expected_seq_num r) (receive_buffer r) (output_file r)
                  (total_packets_received r) (out_of_order_packets r),
       @nil (list byte), Continue) in
    (recv_len <= 0 \/ verify_checksum (area_beyond stack area) recv_packet = false ->
     receiver_step stack r dgram = dropped) /\
    (0 < recv_len /\ verify_checksum (area_beyond stack area) recv_packet = true ->
     exists r' reply c, receiver_step stack r dgram = (r', [reply], c)).
Proof.
  intros stack r dgram area recv_len recv_packet dropped.
  subst dropped. unfold receiver_step. subst area recv_len recv_packet.
  destruct (recvfrom (recv_area r) dgram) as [area recv_len]. cbn [fst snd].
  split.
  - intros [Hlen|Hver].
    + destruct (recv_len <=? 0) eqn:E; [reflexivity | apply Z.leb_gt in E; lia].
    + rewrite Hver. cbn [negb]. destruct (recv_len <=? 0); reflexivity.
  - intros [Hlen Hver].
    destruct (recv_len <=? 0) eqn:E; [apply Z.leb_le in E; lia|].
    rewrite Hver. cbn [negb]. destruct (has_flag _ FIN); eauto.
Qed.

Lemma ack_for_every_data_packet_witness :
  let stack := zero_mem in
  let r := receiver_init zero_area in
  let dgram := data_dgram 1 ["A"%byte] in
  (0 < (recvfrom (recv_area r) dgram).2 /\
   verify_checksum (area_beyond stack (recvfrom (recv_area r) dgram).1)
                   (packet_of_area (recvfrom (recv_area r) dgram).1) = true /\
   has_flag (flags (packet_of_area (recvfrom (recv_area r) dgram).1)) FIN = false) /\
  ack_num (packet_of_area
             (sendto stack
                (control_packet stack ACK 0
                   (expected_seq_num (receiver_step stack r dgram).1.1 - 1))
                HEADER_SIZE)) =
  u32 (expected_seq_num (receiver_step stack r dgram).1.1 - 1).
Proof.
  intros stack r dgram.
  assert (0 < (recvfrom (recv_area r) dgram).2) as H1 by (vm_compute; reflexivity).
  assert (verify_checksum (area_beyond stack (recvfrom (recv_area r) dgram).1)
            (packet_of_area (recvfrom (recv_area r) dgram).1) = true) as H2
    by (vm_compute; reflexivity).
  assert (has_flag (flags (packet_of_area (recvfrom (recv_area r) dgram).1)) FIN = false)
    as H3 by (vm_compute; reflexivity).
  split; [auto|].
  exact (proj1 (proj2 (proj2 (ack_for_every_data_packet stack r dgram H1 H2 H3)))).
Defined.

Lemma receiver_drops_only_on_checksum_witness :
  let stack := zero_mem in
  let r := receiver_init zero_area in
  let dgram := [x01; x02; x03] in
  verify_checksum (area_beyond stack (recvfrom (recv_area r) dgram).1)
                  (packet_of_area (recvfrom (recv_area r) dgram).1) = false /\
  (receiver_step stack r dgram).1.2 = [].
Proof.
  intros stack r dgram.
  assert (verify_checksum (area_beyond stack (recvfrom (recv_area r) dgram).1)
            (packet_of_area (recvfrom (recv_area r) dgram).1) = false) as H
    by (vm_compute; reflexivity).
  split; [exact H|].
  rewrite (proj1 (receiver_drops_only_on_checksum stack r dgram) (or_intror H)).
  reflexivity.
Defined.

(** C8 fails on the code: a datagram of 16 bytes, whose [data_len] of 1
    exceeds the payload received, is not dropped.  It is taken for packet
    2, the byte left in the receive area by packet 1 is written to the
    file a second time, and ACK 2 is sent. *)
Lemma short_datagram_is_delivered :
  length header_only_dgram = 16%nat /\
  Z.of_nat (length header_only_dgram) < HEADER_SIZE /\
  data_len (packet_of_area (recvfrom (recv_area after_packet_1) header_only_dgram).1) = 1 /\
  output_file after_packet_1 = ["A"%byte] /\
  expected_seq_num after_packet_1 = 2 /\
  let '(r', out, c) := receiver_step zero_mem after_packet_1 header_only_dgram in
  output_file r' = ["A"%byte; "A"%byte] /\
  expected_seq_num r' = 3 /\
  out = [sendto zero_mem (control_packet zero_mem ACK 0 2) HEADER_SIZE].
Proof. vm_compute. repeat split; reflexivity. Qed.

(** The handshake of the receiver does not depend on any checksum. *)
Lemma server_handshake_unverified stack area syn ack :
  has_flag (flags (packet_of_area (recvfrom area syn).1)) SYN = true ->
  (server_handshake stack area syn ack).1.2 =
  [sendto stack
     (control_packet stack (Z.lor SYN ACK) 0
        (seq_num (packet_of_area (recvfrom area syn).1) + 1)) HEADER_SIZE].
Proof.
  intros H. unfold server_handshake.
  destruct (recvfrom area syn) as [area1 n1]. cbn [fst] in *. rewrite H.
  destruct (recvfrom area1 ack) as [area2 n2]. reflexivity.
Qed.

(** C7 at the failing inputs.  The handshake never calls
    [verify_checksum]: the receiver answers a SYN whose checksum is wrong
    with a SYN-ACK and takes an ACK whose checksum is wrong for the final
    ACK, and the sender answers a SYN-ACK whose checksum is wrong with the
    final ACK.  The receive loop and the ACK thread do verify: a FIN with a
    wrong checksum is dropped by the first, and a FIN-ACK with a wrong
    checksum leaves the sender as it was. *)
Theorem handshake_accepts_corrupt_control_packets :
  (forall f, f = SYN \/ f = Z.lor SYN ACK \/ f = ACK ->
     verify_checksum (area_beyond zero_mem (recvfrom zero_area (corrupt_control f)).1)
       (packet_of_area (recvfrom zero_area (corrupt_control f)).1) = false) /\
  server_handshake zero_mem zero_area (corrupt_control SYN) (corrupt_control ACK) =
    ((recvfrom zero_area (corrupt_control ACK)).1,
     [sendto zero_mem (control_packet zero_mem (Z.lor SYN ACK) 0 1) HEADER_SIZE],
     true) /\
  client_handshake zero_mem (corrupt_control (Z.lor SYN ACK)) =
    [sendto zero_mem (control_packet zero_mem SYN 0 0) HEADER_SIZE;
     sendto zero_mem (control_packet zero_mem ACK 0 1) HEADER_SIZE] /\
  (receiver_step zero_mem (receiver_init zero_area) (corrupt_control FIN)).1.2 = [] /\
  (forall fl,
     receive_acks_step fl zero_mem (sender_init zero_area)
                       (corrupt_control (Z.lor ACK FIN)) =
     Some (sender_init (recvfrom zero_area (corrupt_control (Z.lor ACK FIN))).1)).
Proof.
  split; [|split; [|split; [|split]]].
  - intros f [-> | [-> | ->]]; vm_compute; reflexivity.
  - vm_compute. reflexivity.
  - vm_compute. reflexivity.
  - vm_compute. reflexivity.
  - intros fl. vm_compute. reflexivity.
Qed.

(** ** The record view and the raw memory agree *)

Lemma byte_of_Z_low (v x : Z) : byte_of_Z (v + 2 ^ 8 * x) = byte_of_Z v.
Proof.
  unfold byte_of_Z.
  replace (v + 2 ^ 8 * x) with (v + x * 256) by lia.
  rewrite Z.mod_add by lia. reflexivity.
Qed.

Lemma div_low (v x : Z) : 0 <= v < 2 ^ 8 -> (v + 2 ^ 8 * x) / 2 ^ 8 = x.
Proof.
  intros Hv. replace (v + 2 ^ 8 * x) with (v + x * 2 ^ 8) by lia.
  rewrite Z.div_add by lia. rewrite (Z.div_small v) by lia. lia.
Qed.

Lemma le16_of_bytes (a b : byte) : le16 (byte_val a + 2 ^ 8 * byte_val b) = [a; b].
Proof.
  unfold le16. rewrite byte_of_Z_low, div_low by apply byte_val_range.
  rewrite !byte_of_Z_val. reflexivity.
Qed.

Lemma le32_of_bytes (a b c d : byte) :
  le32 ((byte_val a + 2 ^ 8 * byte_val b) +
        2 ^ 16 * (byte_val c + 2 ^ 8 * byte_val d)) = [a; b; c; d].
Proof.
  pose proof (byte_val_range a) as Ha. pose proof (byte_val_range b) as Hb.
  pose proof (byte_val_range c) as Hc. pose proof (byte_val_range d) as Hd.
  set (z1 := byte_val c + 2 ^ 8 * byte_val d).
  set (z2 := byte_val b + 2 ^ 8 * z1).
  replace (byte_val a + 2 ^ 8 * byte_val b + 2 ^ 16 * z1)
    with (byte_val a + 2 ^ 8 * z2) by (subst z2; lia).
  set (z := byte_val a + 2 ^ 8 * z2).
  assert (z / 2 ^ 8 = z2) as E1 by (subst z; apply div_low; lia).
  assert (z / 2 ^ 16 = z1) as E2.
  { change (2 ^ 16) with (2 ^ 8 * 2 ^ 8). rewrite <- Z.div_div by lia.
    rewrite E1. subst z2. apply div_low; lia. }
  assert (z / 2 ^ 24 = byte_val d) as E3.
  { change (2 ^ 24) with (2 ^ 16 * 2 ^ 8). rewrite <- Z.div_div by lia.
    rewrite E2. subst z1. apply div_low; lia. }
  unfold le32. rewrite E1, E2, E3. subst z z2 z1.
  rewrite !byte_of_Z_low, !byte_of_Z_val. reflexivity.
Qed.

(** The image of the object read from an area is the start of the area. *)
Lemma packet_image_of_area (area : list byte) :
  (SIZEOF_PACKET <= length area)%nat ->
  packet_image (packet_of_area area) = take SIZEOF_PACKET area.
Proof.
  intros Hlen.
  assert (16 <= length area)%nat as H16
    by (unfold SIZEOF_PACKET, PACKED_HEADER_BYTES in Hlen; lia).
  clear Hlen.
  do 16 (destruct area as [|? area]; [cbn [length] in H16; lia|]).
  unfold packet_of_area, packet_image, get_u32, get_u16, get_u8.
  cbn [seq_num ack_num flags window_size data_len checksum data
       lookup list_lookup Nat.add].
  rewrite !le32_of_bytes, !le16_of_bytes.
  unfold SIZEOF_PACKET, PACKED_HEADER_BYTES.
  cbn [app Nat.add take drop]. reflexivity.
Qed.

(** Reading memory through the object at the start of an area reads the
    area, and the stack after it. *)
Lemma packet_mem_of_area (stack : nat -> byte) (area : list byte) (i : nat) :
  (SIZEOF_PACKET <= length area)%nat ->
  packet_mem (area_beyond stack area) (packet_of_area area) i =
  match area !! i with
  | Some b => b
  | None => stack (i - length area)%nat
  end.
Proof.
  intros Hlen. unfold packet_mem. rewrite packet_image_of_area by exact Hlen.
  rewrite length_take, Nat.min_l by exact Hlen.
  destruct (Nat.lt_ge_cases i SIZEOF_PACKET) as [Hi|Hi].
  - rewrite lookup_take_lt by exact Hi.
    destruct (area !! i) eqn:E; [reflexivity|].
    apply lookup_ge_None in E. lia.
  - rewrite lookup_take_ge by exact Hi. unfold area_beyond.
    replace (SIZEOF_PACKET + (i - SIZEOF_PACKET))%nat with i by lia.
    destruct (area !! i) eqn:E; [reflexivity|].
    apply lookup_ge_None in E. f_equal. lia.
Qed.

Lemma lookup_map_seq {A} (f : nat -> A) (start n i : nat) :
  (i < n)%nat -> map f (seq start n) !! i = Some (f (start + i)%nat).
Proof.
  revert start i. induction n as [|n IH]; intros start i Hi; [lia|].
  cbn [seq map]. destruct i as [|i]; cbn [lookup list_lookup].
  - rewrite Nat.add_0_r. reflexivity.
  - change (map f (seq (S start) n) !! i = Some (f (start + S i)%nat)).
    rewrite IH by lia. f_equal. f_equal. lia.
Qed.

(** A store to the checksum field changes the bytes 14 and 15 of the
    object and no other byte of memory. *)
Lemma packet_mem_set_checksum_other beyond (c : Z) (p : Packet) (i : nat) :
  i <> 14%nat -> i <> 15%nat ->
  packet_mem beyond (set_checksum c p) i = packet_mem beyond p i.
Proof.
  intros H14 H15. unfold packet_mem, packet_image, le32, le16.
  cbn [seq_num ack_num flags window_size data_len checksum data set_checksum
       app length].
  do 16 (destruct i as [|i]; [try reflexivity; lia|]).
  reflexivity.
Qed.

Lemma packet_mem_zero_checksum beyond (p : Packet) (i : nat) :
  i = 14%nat \/ i = 15%nat ->
  packet_mem beyond (set_checksum 0 p) i = x00.
Proof. intros [-> | ->]; reflexivity. Qed.

Lemma packet_mem_header_fields beyond (p : Packet) :
  byte_val (packet_mem beyond p 12) + 2 ^ 8 * byte_val (packet_mem beyond p 13) =
    u16 (data_len p) /\
  byte_val (packet_mem beyond p 14) + 2 ^ 8 * byte_val (packet_mem beyond p 15) =
    u16 (checksum p).
Proof.
  unfold packet_mem, packet_image, le32, le16. cbn [app lookup list_lookup].
  rewrite !le16_value. auto.
Qed.

(** What the sender puts on the wire passes the check of the receiver:
    the datagram of a packet whose checksum field is set, received into
    any receive area, verifies.  This holds for a full payload of
    [MAX_DATA_SIZE] bytes too, where the four bytes past the object that
    the checksum covers travel in the datagram. *)
Lemma verify_on_arrival stack beyond (p : Packet) (area : list byte) :
  length area = Z.to_nat MAX_BUFFER_SIZE ->
  0 <= data_len p <= MAX_DATA_SIZE ->
  let p' := set_checksum (fst (calculate_checksum beyond p)) p in
  let dgram := sendto beyond p' (HEADER_SIZE + data_len p') in
  let area' := (recvfrom area dgram).1 in
  (recvfrom area dgram).2 = HEADER_SIZE + data_len p /\
  verify_checksum (area_beyond stack area') (packet_of_area area') = true.
Proof.
  intros Harea Hdl p' dgram area'.
  assert (MAX_DATA_SIZE = 1480) as HM by reflexivity.
  assert (Z.to_nat MAX_BUFFER_SIZE = 1500%nat) as HB by reflexivity.
  assert (HEADER_SIZE = 20) as HH by reflexivity.
  set (n := Z.to_nat (HEADER_SIZE + data_len p)).
  assert (length dgram = n) as Hlen.
  { subst dgram. unfold sendto. rewrite length_map, length_seq. reflexivity. }
  assert (n <= 1500)%nat as Hn by (subst n; lia).
  assert (20 <= n)%nat as Hn20 by (subst n; lia).
  assert (area' = dgram ++ drop n area) as Harea'.
  { subst area'. unfold recvfrom. cbn [fst]. rewrite HB.
    rewrite take_ge by lia. rewrite Hlen. reflexivity. }
  assert (length area' = 1500%nat) as Hlen'.
  { rewrite Harea', length_app, length_drop, Hlen. lia. }
  assert (forall i, (i < n)%nat -> area' !! i = Some (packet_mem beyond p' i)) as Hlk.
  { intros i Hi. rewrite Harea', lookup_app_l by lia.
    subst dgram. unfold sendto. cbn [data_len set_checksum p'].
    fold n. rewrite lookup_map_seq by exact Hi. reflexivity. }
  assert (forall i, (i < n)%nat -> get_u8 area' i = byte_val (packet_mem beyond p' i))
    as Hget by (intros i Hi; unfold get_u8; rewrite Hlk by exact Hi; reflexivity).
  pose proof (packet_mem_header_fields beyond p') as [Hdl' Hck'].
  assert (data_len (packet_of_area area') = data_len p) as Hdlen.
  { unfold packet_of_area, get_u16. cbn [data_len Nat.add].
    rewrite !Hget by lia. rewrite Hdl'. cbn [data_len set_checksum p'].
    apply u16_small. lia. }
  assert (checksum (packet_of_area area') = fst (calculate_checksum beyond p)) as Hck.
  { unfold packet_of_area, get_u16. cbn [checksum Nat.add].
    rewrite !Hget by lia. rewrite Hck'. cbn [checksum set_checksum p'].
    apply u16_small, calculate_checksum_range. }
  split.
  { unfold recvfrom. cbn [snd]. rewrite Hlen.
    destruct (Z.of_nat n <=? MAX_BUFFER_SIZE) eqn:E.
    - subst n. lia.
    - apply Z.leb_gt in E. unfold MAX_BUFFER_SIZE in E. lia. }
  unfold verify_checksum. rewrite Hck, !calculate_checksum_spec.
  apply Z.eqb_eq. unfold spec_checksum. do 4 f_equal.
  unfold checksum_region. rewrite Hdlen. fold n.
  apply map_ext_in. intros i Hi. apply in_seq in Hi.
  destruct (Nat.eq_dec i 14%nat) as [E14|N14];
    [rewrite !packet_mem_zero_checksum by auto; reflexivity|].
  destruct (Nat.eq_dec i 15%nat) as [E15|N15];
    [rewrite !packet_mem_zero_checksum by auto; reflexivity|].
  rewrite !packet_mem_set_checksum_other by assumption.
  rewrite packet_mem_of_area by (unfold SIZEOF_PACKET, PACKED_HEADER_BYTES; lia).
  rewrite Hlk by lia. subst p'. apply packet_mem_set_checksum_other; assumption.
Qed.

(** C5. [calculate_checksum] computes the one's-complement checksum of
    the specification: the 16-bit little-endian words of the region of
    [20 + data_len] bytes, the checksum field read as zero and an odd last
    byte taken as a low byte, are summed in 32 bits, the carries are
    folded while the high half is nonzero, and the result is complemented.
    Hence a packet whose checksum field is set to the computed value
    passes [verify_checksum], in place and, for a payload of at most
    [MAX_DATA_SIZE] bytes, after its datagram has been received. *)
Theorem checksum_algorithm_and_verify :
  forall (beyond : nat -> byte) (P : Packet),
    fst (calculate_checksum beyond P) = spec_checksum beyond P /\
    verify_checksum beyond (set_checksum (fst (calculate_checksum beyond P)) P) = true /\
    (forall (stack : nat -> byte) (area : list byte),
       length area = Z.to_nat MAX_BUFFER_SIZE ->
       0 <= data_len P <= MAX_DATA_SIZE ->
       let P' := set_checksum (fst (calculate_checksum beyond P)) P in
       let area' := (recvfrom area (sendto beyond P' (HEADER_SIZE + data_len P'))).1 in
       verify_checksum (area_beyond stack area') (packet_of_area area') = true).
Proof.
  intros beyond P. split; [|split].
  - apply calculate_checksum_spec.
  - apply verify_after_set.
  - intros stack area Harea Hdl. apply verify_on_arrival; assumption.
Qed.

(** ** The sender: admission of new data *)

Section Admission.

Variable stack : nat -> byte.
Variable file_buffer : list byte.

Lemma send_new_packet_reno clock s :
  reno (send_new_packet stack file_buffer clock s).1 = reno s.
Proof.
  unfold send_new_packet. destruct (calculate_checksum _ _) as [c q]. reflexivity.
Qed.

Lemma send_new_packet_size clock s :
  (size (send_window (send_new_packet stack file_buffer clock s).1)
   <= S (size (send_window s)))%nat.
Proof.
  unfold send_new_packet. destruct (calculate_checksum _ _) as [c q]. cbn [fst send_window].
  rewrite map_size_insert. destruct (send_window s !! next_seq_num s); cbn; lia.
Qed.

Lemma send_new_packet_bytes clock s :
  bytes_sent_total (send_new_packet stack file_buffer clock s).1 =
  bytes_sent_total s +
  Z.min MAX_DATA_SIZE (Z.of_nat (length file_buffer) - bytes_sent_total s).
Proof.
  unfold send_new_packet. destruct (calculate_checksum _ _) as [c q]. reflexivity.
Qed.

Lemma window_open_true s :
  window_open file_buffer s = true ->
  (inject_Z (Z.of_nat (size (send_window s))) < effective_window s)%Q /\
  bytes_sent_total s < Z.of_nat (length file_buffer).
Proof.
  unfold window_open, effective_window. intros H.
  apply andb_true_iff in H as [H1 H2]. apply Z.ltb_lt in H2. split; [|exact H2].
  apply negb_true_iff in H1. apply Qnot_le_lt. intros Hle.
  apply Qle_bool_iff in Hle. congruence.
Qed.

Lemma below_cap_succ (n : Z) (m : Q) : (inject_Z n < m)%Q -> n + 1 <= Qceiling m.
Proof.
  intros H. pose proof (Qle_ceiling m) as Hc.
  assert (inject_Z n < inject_Z (Qceiling m))%Q as Hlt by (eapply Qlt_le_trans; eauto).
  rewrite <- Zlt_Qlt in Hlt. lia.
Qed.

Lemma new_data_loop_reno fuel clock s :
  reno (new_data_loop stack file_buffer fuel clock s).1 = reno s.
Proof.
  revert s. induction fuel as [|fuel IH]; intros s; cbn [new_data_loop]; [reflexivity|].
  destruct (window_open file_buffer s); [|reflexivity].
  pose proof (send_new_packet_reno clock s) as H1.
  destruct (send_new_packet stack file_buffer clock s) as [s1 d]. cbn [fst] in H1.
  specialize (IH s1). destruct (new_data_loop stack file_buffer fuel clock s1) as [s2 out].
  cbn [fst] in *. congruence.
Qed.

Lemma new_data_loop_size fuel clock s :
  Z.of_nat (size (send_window (new_data_loop stack file_buffer fuel clock s).1)) <=
  Z.max (Z.of_nat (size (send_window s))) (Qceiling (effective_window s)).
Proof.
  revert s. induction fuel as [|fuel IH]; intros s; cbn [new_data_loop]; [cbn; lia|].
  destruct (window_open file_buffer s) eqn:E; [|cbn; lia].
  apply window_open_true in E as [Hlt _]. apply below_cap_succ in Hlt.
  pose proof (send_new_packet_reno clock s) as H1.
  pose proof (send_new_packet_size clock s) as H2.
  destruct (send_new_packet stack file_buffer clock s) as [s1 d]. cbn [fst] in H1, H2.
  specialize (IH s1). destruct (new_data_loop stack file_buffer fuel clock s1) as [s2 out].
  cbn [fst] in *. unfold effective_window in *. rewrite H1 in IH. lia.
Qed.

(** The admission loop leaves by its test when the fuel is the number of
    bytes still to send. *)
Lemma new_data_loop_exit fuel clock s :
  Z.of_nat (length file_buffer) - bytes_sent_total s <= Z.of_nat fuel ->
  window_open file_buffer (new_data_loop stack file_buffer fuel clock s).1 = false.
Proof.
  revert s. induction fuel as [|fuel IH]; intros s Hf; cbn [new_data_loop].
  - cbn [fst]. unfold window_open.
    destruct (bytes_sent_total s <? Z.of_nat (length file_buffer)) eqn:E.
    + apply Z.ltb_lt in E. lia.
    + apply andb_false_r.
  - destruct (window_open file_buffer s) eqn:E; [|exact E].
    apply window_open_true in E as [_ Hb].
    pose proof (send_new_packet_bytes clock s) as H1.
    destruct (send_new_packet stack file_buffer clock s) as [s1 d]. cbn [fst] in H1.
    specialize (IH s1). destruct (new_data_loop stack file_buffer fuel clock s1) as [s2 out].
    cbn [fst] in *. apply IH. rewrite H1. unfold MAX_DATA_SIZE, MAX_BUFFER_SIZE, HEADER_SIZE. lia.
Qed.

Lemma std_min_inject (a b : Z) :
  (std_min (inject_Z a) (inject_Z b) == inject_Z (Z.min a b))%Q.
Proof.
  unfold std_min. destruct (Qle_bool (inject_Z a) (inject_Z b)) eqn:E.
  - apply Qle_bool_iff in E. rewrite <- Zle_Qle in E. rewrite Z.min_l by lia. reflexivity.
  - assert (~ (inject_Z a <= inject_Z b)%Q) as Hn
      by (intros H; apply Qle_bool_iff in H; congruence).
    rewrite <- Zle_Qle in Hn. rewrite Z.min_r by lia. reflexivity.
Qed.

Lemma std_min_comp a b b' : (b == b')%Q -> (std_min a b == std_min a b')%Q.
Proof.
  intros H. unfold std_min. rewrite H. destruct (Qle_bool a b'); [reflexivity | exact H].
Qed.

(** C1, as the code has it.  The admission step runs its loop to the end
    (it leaves it because the test fails), does not touch the congestion
    variables, and leaves at most [max(n0, ceil(min(FLOW_CONTROL_WINDOW_SIZE,
    cwnd)))] entries in the send window, [n0] being the number of entries
    on entry: a packet is let in while the window holds fewer entries
    than [min(FLOW_CONTROL_WINDOW_SIZE, cwnd)], compared as reals.  When
    [cwnd] is a whole number and the window is within the cap on entry,
    this is the bound [min(FLOW_CONTROL_WINDOW_SIZE, floor(cwnd))]. *)
Theorem admission_window_bound :
  forall (clock : Z -> Z) (s : Sender),
    let s' := (new_data_step stack file_buffer clock s).1 in
    window_open file_buffer s' = false /\
    reno s' = reno s /\
    Z.of_nat (size (send_window s')) <=
      Z.max (Z.of_nat (size (send_window s)))
            (Qceiling (std_min (inject_Z Common2.FLOW_CONTROL_WINDOW_SIZE) (cwnd (reno s)))) /\
    (forall k : Z,
       (cwnd (reno s) == inject_Z k)%Q ->
       Z.of_nat (size (send_window s)) <= Z.min Common2.FLOW_CONTROL_WINDOW_SIZE k ->
       Z.of_nat (size (send_window s')) <=
         Z.min Common2.FLOW_CONTROL_WINDOW_SIZE (Qfloor (cwnd (reno s')))).
Proof.
  intros clock s s'. subst s'. unfold new_data_step.
  pose proof (new_data_loop_size (new_data_fuel file_buffer s) clock s) as Hsz.
  pose proof (new_data_loop_reno (new_data_fuel file_buffer s) clock s) as Hr.
  split; [|split; [exact Hr|split; [exact Hsz|]]].
  - apply new_data_loop_exit. unfold new_data_fuel. lia.
  - intros k Hk Hn. rewrite Hr.
    unfold effective_window in Hsz.
    rewrite (Qceiling_comp _ (inject_Z (Z.min Common2.FLOW_CONTROL_WINDOW_SIZE k))) in Hsz.
    2:{ rewrite (std_min_comp _ _ _ Hk). apply std_min_inject. }
    rewrite Qceiling_Z in Hsz.
    rewrite (Qfloor_comp _ _ Hk), Qfloor_Z. lia.
Qed.

End Admission.

(** ** The sender: the Reno controller *)

Section RenoProofs.

Variable fl : Q -> Q.
Hypothesis fl_mono : forall x y : Q, (x <= y)%Q -> (fl x <= fl y)%Q.
Hypothesis fl_int : forall z : Z, Z.abs z <= 2 ^ 53 -> (fl (inject_Z z) == inject_Z z)%Q.

Lemma fl_le_int (x : Q) (z : Z) :
  Z.abs z <= 2 ^ 53 -> (x <= inject_Z z)%Q -> (fl x <= inject_Z z)%Q.
Proof. intros Hz Hx. rewrite <- (fl_int z Hz). apply fl_mono, Hx. Qed.

Lemma fl_ge_int (x : Q) (z : Z) :
  Z.abs z <= 2 ^ 53 -> (inject_Z z <= x)%Q -> (inject_Z z <= fl x)%Q.
Proof. intros Hz Hx. rewrite <- (fl_int z Hz). apply fl_mono, Hx. Qed.

Lemma std_max_ge_2 (y : Q) : (2 <= std_max 2 y)%Q.
Proof.
  unfold std_max. destruct (Qle_bool y 2) eqn:E; [apply Qle_refl|].
  apply Qlt_le_weak, Qnot_le_lt. intros H. apply Qle_bool_iff in H. congruence.
Qed.

Lemma std_max_le (y : Q) (b : Z) :
  2 <= b -> (y <= inject_Z b)%Q -> (std_max 2 y <= inject_Z b)%Q.
Proof.
  intros Hb Hy. unfold std_max. destruct (Qle_bool y 2); [|exact Hy].
  change 2%Q with (inject_Z 2). rewrite <- Zle_Qle. exact Hb.
Qed.

(** The conversion of a value between 2 and a 32-bit bound is defined and
    is the integer part. *)
Lemma double_to_u32_defined (x : Q) (b : Z) :
  (2 <= x)%Q -> (x <= inject_Z b)%Q -> b < 2 ^ 32 ->
  double_to_u32 x = Some (Qfloor x) /\ 2 <= Qfloor x <= b.
Proof.
  intros H2 Hb Hb32.
  assert (2 <= Qfloor x <= b) as Hf.
  { split.
    - change 2 with (Qfloor (inject_Z 2)). apply Qfloor_resp_le. exact H2.
    - rewrite <- (Qfloor_Z b). apply Qfloor_resp_le. exact Hb. }
  split; [|exact Hf]. unfold double_to_u32.
  assert (Qle_bool 0 x = true) as ->.
  { apply Qle_bool_iff. eapply Qle_trans; [|exact H2]. discriminate. }
  destruct (0 <=? Qfloor x) eqn:E1; [|apply Z.leb_gt in E1; lia].
  destruct (Qfloor x <? 2 ^ 32) eqn:E2; [|apply Z.ltb_ge in E2; lia].
  reflexivity.
Qed.

Lemma half_eq (c : Q) : (c / 2 == c * (1 # 2))%Q.
Proof. unfold Qdiv. reflexivity. Qed.

Lemma inject_Z_le (a b : Z) : a <= b -> (inject_Z a <= inject_Z b)%Q.
Proof. intros H. rewrite <- Zle_Qle. exact H. Qed.

Lemma reno_inv_mono (n m : Z) (r : Reno) : n <= m -> reno_inv n r -> reno_inv m r.
Proof.
  intros Hnm (H1 & H2 & H3 & H4). repeat split; try lia; try exact H1.
  eapply Qle_trans; [exact H2|]. apply inject_Z_le. lia.
Qed.

Lemma reno_init_inv : reno_inv 0 reno_init.
Proof. repeat split; cbn; try lia; discriminate. Qed.

(** [ssthresh = (std::max)(2.0, cwnd / 2.0)] is defined under the
    invariant and at most halves the bound. *)
Lemma ssthresh_after_loss (n : Z) (r : Reno) :
  0 <= n -> n + 16 < 2 ^ 32 -> reno_inv n r ->
  let x := std_max 2 (fl (cwnd r / 2)) in
  double_to_u32 x = Some (Qfloor x) /\ 2 <= Qfloor x /\ 2 * Qfloor x <= n + 17.
Proof.
  intros Hn Hn32 (H1 & H2 & _ & _) x.
  set (m := (n + 17) / 2).
  assert (n + 16 <= 2 * m <= n + 17) as Hm.
  { subst m. pose proof (Z.div_mod (n + 17) 2 ltac:(lia)).
    pose proof (Z.mod_pos_bound (n + 17) 2 ltac:(lia)). lia. }
  assert (cwnd r / 2 <= inject_Z m)%Q as Hhalf.
  { rewrite half_eq.
    assert (inject_Z (n + 16) <= inject_Z (2 * m))%Q as Hq by (apply inject_Z_le; lia).
    rewrite inject_Z_mult in Hq. change (inject_Z 2) with 2%Q in Hq. lra. }
  assert (fl (cwnd r / 2) <= inject_Z m)%Q as Hfl by (apply fl_le_int; [lia | exact Hhalf]).
  assert (x <= inject_Z (Z.max 2 m))%Q as Hx.
  { apply std_max_le; [lia|]. eapply Qle_trans; [exact Hfl|]. apply inject_Z_le. lia. }
  destruct (double_to_u32_defined x (Z.max 2 m) (std_max_ge_2 _) Hx ltac:(lia)) as [Hd Hr].
  split; [exact Hd|]. lia.
Qed.

Lemma reno_timeout_inv (n : Z) (r : Reno) :
  0 <= n -> n + 16 < 2 ^ 32 -> reno_inv n r ->
  exists r', reno_timeout fl r = Some r' /\ reno_inv n r'.
Proof.
  intros Hn Hn32 Hr. unfold reno_timeout.
  destruct (ssthresh_after_loss n r Hn Hn32 Hr) as (Hd & H2 & Hle).
  cbn zeta in Hd. rewrite Hd. cbn. eexists. split; [reflexivity|].
  repeat split; cbn; try lia; try discriminate.
  change 1%Q with (inject_Z 1). apply inject_Z_le. lia.
Qed.

Lemma inv_cwnd_succ (n : Z) (c : Q) :
  0 <= n -> n + 17 <= 2 ^ 53 ->
  (1 <= c)%Q -> (c <= inject_Z (n + 16))%Q ->
  (1 <= fl (c + 1))%Q /\ (fl (c + 1) <= inject_Z (n + 1 + 16))%Q.
Proof.
  intros Hn Hn53 H1 H2. split.
  - apply (fl_ge_int (c + 1) 1); [lia|]. change (inject_Z 1) with 1%Q. lra.
  - apply fl_le_int; [lia|].
    replace (n + 1 + 16) with (n + 16 + 1) by lia.
    rewrite inject_Z_plus. change (inject_Z 1) with 1%Q. lra.
Qed.

Lemma reno_new_ack_inv (n : Z) (r : Reno) :
  0 <= n -> n + 17 <= 2 ^ 53 ->
  reno_inv n r -> duplicate_ack_count r = 0 ->
  reno_inv (n + 1) (reno_new_ack fl r).
Proof.
  intros Hn Hn53 (H1 & H2 & H3 & H4) Hdup. unfold reno_new_ack.
  destruct (state r).
  - destruct (inv_cwnd_succ n (cwnd r) Hn Hn53 H1 H2) as [Ha Hb].
    repeat split; cbn; try lia; assumption.
  - assert (0 <= 1 / cwnd r)%Q as Hi0 by (apply Qle_shift_div_l; lra).
    assert (1 / cwnd r <= 1)%Q as Hi1 by (apply Qle_shift_div_r; lra).
    assert (0 <= fl (1 / cwnd r))%Q as Hf0
      by (apply (fl_ge_int _ 0); [lia | exact Hi0]).
    assert (fl (1 / cwnd r) <= 1)%Q as Hf1
      by (apply (fl_le_int _ 1); [lia | exact Hi1]).
    repeat split; cbn; try lia.
    + apply (fl_ge_int _ 1); [lia|]. change (inject_Z 1) with 1%Q. lra.
    + apply fl_le_int; [lia|].
      replace (n + 1 + 16) with (n + 16 + 1) by lia.
      rewrite inject_Z_plus. change (inject_Z 1) with 1%Q. lra.
  - repeat split; cbn; try lia.
    + change 1%Q with (inject_Z 1). apply inject_Z_le. lia.
    + apply inject_Z_le. lia.
Qed.

Lemma on_new_ack_reno (acked_num : Z) (s : Sender) :
  reno (on_new_ack fl acked_num s) =
  reno_new_ack fl (mkReno (cwnd (reno s)) (ssthresh (reno s)) (state (reno s)) 0).
Proof. reflexivity. Qed.

Lemma on_dup_ack_inv (n : Z) (s : Sender) :
  0 <= n -> n < 2 ^ 31 - 1 -> reno_inv n (reno s) ->
  exists s', on_dup_ack fl s = Some s' /\ reno_inv (n + 1) (reno s').
Proof.
  intros Hn Hn31 Hr. pose proof Hr as (H1 & H2 & H3 & H4). unfold on_dup_ack.
  unfold int_incr.
  destruct (duplicate_ack_count (reno s) <? 2 ^ 31 - 1) eqn:E;
    [|apply Z.ltb_ge in E; lia].
  cbn [mbind option_bind state cwnd ssthresh].
  destruct (state (reno s)) eqn:Est.
  - destruct (duplicate_ack_count (reno s) + 1 =? 3).
    + destruct (ssthresh_after_loss n (reno s) Hn ltac:(lia) Hr) as (Hd & Hge & Hle).
      cbn zeta in Hd. rewrite Hd. cbn [mbind option_bind].
      eexists. split; [reflexivity|]. cbn [reno set_retransmit_seq_num set_reno].
      set (t := Qfloor _) in *.
      rewrite u32_small by lia.
      repeat split; cbn; try lia.
      * change 1%Q with (inject_Z 1). apply inject_Z_le. lia.
      * apply inject_Z_le. lia.
    + eexists. split; [reflexivity|]. cbn [reno set_reno].
      repeat split; cbn; try lia; try assumption.
      eapply Qle_trans; [exact H2|]. apply inject_Z_le. lia.
  - destruct (duplicate_ack_count (reno s) + 1 =? 3).
    + destruct (ssthresh_after_loss n (reno s) Hn ltac:(lia) Hr) as (Hd & Hge & Hle).
      cbn zeta in Hd. rewrite Hd. cbn [mbind option_bind].
      eexists. split; [reflexivity|]. cbn [reno set_retransmit_seq_num set_reno].
      set (t := Qfloor _) in *.
      rewrite u32_small by lia.
      repeat split; cbn; try lia.
      * change 1%Q with (inject_Z 1). apply inject_Z_le. lia.
      * apply inject_Z_le. lia.
    + eexists. split; [reflexivity|]. cbn [reno set_reno].
      repeat split; cbn; try lia; try assumption.
      eapply Qle_trans; [exact H2|]. apply inject_Z_le. lia.
  - eexists. split; [reflexivity|]. cbn [reno set_reno].
    destruct (inv_cwnd_succ n (cwnd (reno s)) Hn ltac:(lia) H1 H2) as [Ha Hb].
    repeat split; cbn; try lia; assumption.
Qed.

Lemma handle_ack_inv (n : Z) (acked_num : Z) (s : Sender) :
  0 <= n -> n < 2 ^ 31 - 1 -> reno_inv n (reno s) ->
  exists s', handle_ack fl acked_num s = Some s' /\ reno_inv (n + 1) (reno s').
Proof.
  intros Hn Hn31 Hr. unfold handle_ack.
  destruct (send_base (count_ack s) <=? acked_num).
  - eexists. split; [reflexivity|]. rewrite on_new_ack_reno.
    apply reno_new_ack_inv; [lia | lia | | reflexivity].
    destruct Hr as (H1 & H2 & H3 & H4). repeat split; cbn; try lia; assumption.
  - apply (on_dup_ack_inv n (count_ack s)); assumption.
Qed.

Lemma receive_acks_step_inv stack (n : Z) (s : Sender) (dgram : list byte) :
  0 <= n -> n < 2 ^ 31 - 1 -> reno_inv n (reno s) ->
  exists s', receive_acks_step fl stack s dgram = Some s' /\ reno_inv (n + 1) (reno s').
Proof.
  intros Hn Hn31 Hr. unfold receive_acks_step.
  destruct (recvfrom (ack_area s) dgram) as [area recv_len].
  assert (reno_inv (n + 1) (reno (set_ack_area area s))) as Hkeep
    by (apply (reno_inv_mono n); [lia | exact Hr]).
  destruct (0 <? recv_len); [|eauto].
  destruct (verify_checksum _ _ && has_flag _ ACK); [|eauto].
  apply handle_ack_inv; assumption.
Qed.

(** *** The main loop keeps the invariant *)

Section MainLoop.

Variable stack : nat -> byte.
Variable entry_beyond : PacketState -> nat -> byte.
Variable ticks_per_ms : Z.
Variable file_buffer : list byte.

Lemma timeout_entry_inv (n : Z) clock acc kv :
  0 <= n -> n + 16 < 2 ^ 32 ->
  (exists s out, acc = Some (s, out) /\ reno_inv n (reno s)) ->
  exists s out,
    timeout_entry fl entry_beyond ticks_per_ms clock acc kv = Some (s, out) /\
    reno_inv n (reno s).
Proof.
  intros Hn Hn32 (s & out & -> & Hr). unfold timeout_entry.
  cbn [mbind option_bind].
  destruct (timed_out ticks_per_ms (clock kv.1) kv.2); [|eauto].
  destruct (retransmit entry_beyond (clock kv.1) kv.2) as [ps dgram].
  cbn [reno count_retransmission set_window].
  destruct (reno_timeout_inv n (reno s) Hn Hn32 Hr) as (r' & -> & Hr').
  cbn [mbind option_bind]. eauto.
Qed.

Lemma timeout_scan_inv (n : Z) clock s :
  0 <= n -> n + 16 < 2 ^ 32 -> reno_inv n (reno s) ->
  exists s' out,
    timeout_scan fl entry_beyond ticks_per_ms clock s = Some (s', out) /\
    reno_inv n (reno s').
Proof.
  intros Hn Hn32 Hr. unfold timeout_scan.
  assert (exists s0 out0, Some (s, @nil (list byte)) = Some (s0, out0) /\
                          reno_inv n (reno s0)) as Hacc by eauto.
  revert Hacc. generalize (Some (s, @nil (list byte))).
  induction (sorted_entries (send_window s)) as [|kv l IH]; intros acc Hacc.
  - cbn. destruct Hacc as (s0 & out0 & -> & H0). eauto.
  - cbn [fold_left]. apply IH. apply timeout_entry_inv; assumption.
Qed.

Lemma retransmit_step_inv (n : Z) clock s :
  0 <= n -> n + 16 < 2 ^ 32 -> reno_inv n (reno s) ->
  exists s' out,
    retransmit_step fl entry_beyond ticks_per_ms clock s = Some (s', out) /\
    reno_inv n (reno s').
Proof.
  intros Hn Hn32 Hr. unfold retransmit_step.
  destruct (if 0 <? retransmit_seq_num s
            then send_window (set_retransmit_seq_num 0 s) !! retransmit_seq_num s
            else None) as [ps|].
  - destruct (retransmit entry_beyond _ ps) as [ps' dgram]. eauto.
  - apply timeout_scan_inv; assumption.
Qed.

Lemma main_step_inv (n : Z) clock s :
  0 <= n -> n + 16 < 2 ^ 32 -> reno_inv n (reno s) ->
  exists s' out,
    main_step fl stack entry_beyond ticks_per_ms file_buffer clock s = Some (s', out) /\
    reno_inv n (reno s').
Proof.
  intros Hn Hn32 Hr. unfold main_step.
  destruct (transmission_complete s); [eauto|].
  destruct (main_loop_cond file_buffer s).
  - unfold main_body.
    destruct (retransmit_step_inv n clock s Hn Hn32 Hr) as (s1 & out1 & -> & H1).
    cbn [mbind option_bind].
    pose proof (new_data_loop_reno stack file_buffer (new_data_fuel file_buffer s1) clock s1) as Ha.
    unfold new_data_step.
    destruct (new_data_loop stack file_buffer (new_data_fuel file_buffer s1) clock s1)
      as [s2 out2]. cbn [fst] in Ha.
    eexists _, _. split; [reflexivity|]. rewrite Ha. exact H1.
  - unfold main_exit. eauto.
Qed.

Lemma count_acks_nonneg events : 0 <= count_acks events.
Proof.
  induction events as [|[d|c] es IH]; cbn [count_acks]; lia.
Qed.

Lemma sender_run_inv (events : list SenderEvent) :
  forall (n : Z) (s : Sender),
    0 <= n -> n + count_acks events < 2 ^ 31 - 1 -> reno_inv n (reno s) ->
    exists s',
      sender_run fl stack entry_beyond ticks_per_ms file_buffer s events = Some s' /\
      reno_inv (n + count_acks events) (reno s').
Proof.
  induction events as [|e es IH]; intros n s Hn Hb Hr.
  - exists s. split; [reflexivity|]. cbn [count_acks]. rewrite Z.add_0_r. exact Hr.
  - pose proof (count_acks_nonneg es) as Hes.
    unfold sender_run. cbn [foldl mbind option_bind].
    destruct e as [dgram|clock]; cbn [count_acks sender_step] in *.
    + destruct (receive_acks_step_inv stack n s dgram Hn ltac:(lia) Hr)
        as (s1 & -> & H1).
      destruct (IH (n + 1) s1 ltac:(lia) ltac:(lia) H1) as (s2 & Hrun & H2).
      exists s2. split; [exact Hrun|].
      replace (n + (1 + count_acks es)) with (n + 1 + count_acks es) by lia. exact H2.
    + destruct (main_step_inv n clock s Hn ltac:(lia) Hr) as (s1 & out & -> & H1).
      cbn [fmap option_fmap option_map fst].
      apply (IH n s1 Hn Hb H1).
Qed.

(** C6. Every run of the sender from its initial state ([cwnd = 1],
    [ssthresh = 16]), made of datagrams handled by the ACK thread (new and
    duplicate ACKs) and of turns of the main loop (with their timeouts),
    is defined and ends with [cwnd >= 1] and [ssthresh >= 2], as long as
    fewer than 2^31 - 1 datagrams reach the ACK thread (past that the
    [int] counter of duplicate ACKs can overflow). *)
Theorem reno_bounds_on_every_run :
  forall (area : list byte) (events : list SenderEvent),
    count_acks events < 2 ^ 31 - 1 ->
    exists s,
      sender_run fl stack entry_beyond ticks_per_ms file_buffer
                 (sender_init area) events = Some s /\
      (1 <= cwnd (reno s))%Q /\ 2 <= ssthresh (reno s).
Proof.
  intros area events Hb.
  destruct (sender_run_inv events 0 (sender_init area) ltac:(lia) ltac:(lia)
              reno_init_inv) as (s & Hrun & (H1 & _ & H3 & _)).
  exists s. split; [exact Hrun|]. split; [exact H1 | lia].
Qed.

End MainLoop.

(** *** Duplicate ACKs *)

Lemma handle_ack_dup (acked_num : Z) (s : Sender) :
  acked_num < send_base s ->
  handle_ack fl acked_num s = on_dup_ack fl (count_ack s).
Proof.
  intros H. unfold handle_ack. cbn [send_base count_ack].
  destruct (send_base s <=? acked_num) eqn:E; [apply Z.leb_le in E; lia | reflexivity].
Qed.

(** A duplicate ACK during fast recovery. *)
Lemma dup_ack_in_recovery (acked_num : Z) (s : Sender) :
  acked_num < send_base s ->
  state (reno s) = FAST_RECOVERY ->
  duplicate_ack_count (reno s) < 2 ^ 31 - 1 ->
  exists s',
    handle_ack fl acked_num s = Some s' /\
    state (reno s') = FAST_RECOVERY /\
    cwnd (reno s') = fl (cwnd (reno s) + 1) /\
    ssthresh (reno s') = ssthresh (reno s) /\
    duplicate_ack_count (reno s') = duplicate_ack_count (reno s) + 1 /\
    retransmit_seq_num s' = retransmit_seq_num s /\
    send_base s' = send_base s /\
    send_window s' = send_window s.
Proof.
  intros Hlt Hst Hdup. rewrite handle_ack_dup by exact Hlt.
  unfold on_dup_ack, int_incr. cbn zeta. cbn [reno count_ack].
  destruct (duplicate_ack_count (reno s) <? 2 ^ 31 - 1) eqn:E;
    [|apply Z.ltb_ge in E; lia].
  cbn [mbind option_bind state]. rewrite ?Hst.
  eexists. split; [reflexivity|]. cbn. rewrite ?Hst. repeat split; reflexivity.
Qed.

Lemma dup_acks_in_recovery (acks : list Z) :
  forall s : Sender,
    Forall (fun a => a < send_base s) acks ->
    state (reno s) = FAST_RECOVERY ->
    duplicate_ack_count (reno s) + Z.of_nat (length acks) < 2 ^ 31 ->
    exists s',
      handle_acks fl acks s = Some s' /\
      state (reno s') = FAST_RECOVERY /\
      ssthresh (reno s') = ssthresh (reno s) /\
      retransmit_seq_num s' = retransmit_seq_num s /\
      send_base s' = send_base s /\
      send_window s' = send_window s.
Proof.
  induction acks as [|a acks IH]; intros s Hall Hst Hdup.
  - exists s. repeat split; try reflexivity. exact Hst.
  - apply Forall_cons in Hall as [Ha Hall].
    cbn [length] in Hdup.
    destruct (dup_ack_in_recovery a s Ha Hst ltac:(lia))
      as (s1 & Hs1 & Hst1 & _ & Hss1 & Hd1 & Hrt1 & Hsb1 & Hw1).
    unfold handle_acks. cbn [foldl mbind option_bind]. rewrite Hs1.
    destruct (IH s1) as (s2 & Hs2 & Hst2 & Hss2 & Hrt2 & Hsb2 & Hw2).
    + rewrite Hsb1. exact Hall.
    + exact Hst1.
    + rewrite Hd1. lia.
    + exists s2. split; [exact Hs2|]. repeat split; congruence.
Qed.

(** C3. A duplicate ACK ([ack_num < send_base]) that arrives outside fast
    recovery and brings [duplicate_ack_count] to 3 puts the controller in
    FAST_RECOVERY, stores [max(2, cwnd / 2)] in [ssthresh] (a [uint32_t]:
    the integer part is stored), sets [cwnd = ssthresh + 3] and signals
    the fast retransmit of [send_base].  A duplicate ACK that arrives
    during fast recovery adds 1 to [cwnd] and changes neither the state,
    nor [ssthresh], nor the retransmit signal; so no number of further
    duplicate ACKs signals a second fast retransmit. *)
Theorem duplicate_ack_fast_retransmit :
  forall (s : Sender) (acked_num : Z),
    acked_num < send_base s ->
    (state (reno s) <> FAST_RECOVERY ->
     duplicate_ack_count (reno s) + 1 = 3 ->
     (cwnd (reno s) <= inject_Z (2 ^ 32))%Q ->
     exists s',
       handle_ack fl acked_num s = Some s' /\
       state (reno s') = FAST_RECOVERY /\
       ssthresh (reno s') = Qfloor (std_max 2 (fl (cwnd (reno s) / 2))) /\
       (forall k : Z, (std_max 2 (fl (cwnd (reno s) / 2)) == inject_Z k)%Q ->
                      ssthresh (reno s') = k) /\
       cwnd (reno s') = inject_Z (ssthresh (reno s') + 3) /\
       retransmit_seq_num s' = send_base s /\
       send_base s' = send_base s /\
       send_window s' = send_window s) /\
    (state (reno s) = FAST_RECOVERY ->
     duplicate_ack_count (reno s) < 2 ^ 31 - 1 ->
     exists s',
       handle_ack fl acked_num s = Some s' /\
       state (reno s') = FAST_RECOVERY /\
       cwnd (reno s') = fl (cwnd (reno s) + 1) /\
       ssthresh (reno s') = ssthresh (reno s) /\
       retransmit_seq_num s' = retransmit_seq_num s /\
       send_base s' = send_base s /\
       send_window s' = send_window s) /\
    (state (reno s) = FAST_RECOVERY ->
     forall acks : list Z,
       Forall (fun a => a < send_base s) acks ->
       duplicate_ack_count (reno s) + Z.of_nat (length acks) < 2 ^ 31 ->
       exists s',
         handle_acks fl acks s = Some s' /\
         state (reno s') = FAST_RECOVERY /\
         retransmit_seq_num s' = retransmit_seq_num s /\
         send_base s' = send_base s).
Proof.
  intros s acked_num Hlt. split; [|split].
  - intros Hst Hdup Hc. rewrite handle_ack_dup by exact Hlt.
    unfold on_dup_ack, int_incr. cbn zeta. cbn [reno count_ack].
    destruct (duplicate_ack_count (reno s) <? 2 ^ 31 - 1) eqn:E;
      [|apply Z.ltb_ge in E; lia].
    cbn [mbind option_bind state cwnd ssthresh]. rewrite Hdup. cbn [Z.eqb Pos.eqb].
    assert (fl (cwnd (reno s) / 2) <= inject_Z (2 ^ 31))%Q as Hfl.
    { apply fl_le_int; [lia|]. rewrite half_eq.
      change (inject_Z (2 ^ 32)) with (2 * inject_Z (2 ^ 31))%Q in Hc. lra. }
    destruct (double_to_u32_defined (std_max 2 (fl (cwnd (reno s) / 2))) (2 ^ 31)
                (std_max_ge_2 _) (std_max_le _ (2 ^ 31) ltac:(lia) Hfl) ltac:(lia))
      as [Hd Hr].
    assert (exists s',
              (ss ← double_to_u32 (std_max 2 (fl (cwnd (reno s) / 2)));
               Some (set_retransmit_seq_num (send_base (count_ack s))
                       (set_reno (mkReno (inject_Z (u32 (ss + 3))) ss FAST_RECOVERY 3)
                                 (count_ack s)))) = Some s' /\
              state (reno s') = FAST_RECOVERY /\
              ssthresh (reno s') = Qfloor (std_max 2 (fl (cwnd (reno s) / 2))) /\
              cwnd (reno s') = inject_Z (ssthresh (reno s') + 3) /\
              retransmit_seq_num s' = send_base s /\
              send_base s' = send_base s /\
              send_window s' = send_window s) as (s' & Hs' & H1 & H2 & H3 & H4 & H5 & H6).
    { rewrite Hd. cbn [mbind option_bind]. eexists. split; [reflexivity|].
      cbn. rewrite u32_small by lia. repeat split; reflexivity. }
    exists s'. split.
    + destruct (state (reno s)); [exact Hs' | exact Hs' | congruence].
    + repeat split; try assumption.
      intros k Hk. rewrite H2, (Qfloor_comp _ _ Hk). apply Qfloor_Z.
  - intros Hst Hdup.
    destruct (dup_ack_in_recovery acked_num s Hlt Hst Hdup)
      as (s' & H0 & H1 & H2 & H3 & _ & H5 & H6 & H7).
    exists s'. repeat split; assumption.
  - intros Hst acks Hall Hdup.
    destruct (dup_acks_in_recovery acks s Hall Hst Hdup)
      as (s' & H0 & H1 & _ & H3 & H4 & _).
    exists s'. repeat split; assumption.
Qed.

End RenoProofs.

(** C1 fails on the code.  After the admission step that ends
    [fractional_run], [cwnd] is 5/2 and the send window holds 3 entries,
    one more than [floor(cwnd)]: the loop lets packets in while the size
    is below [cwnd] itself.  After the admission step that ends
    [timeout_run], [cwnd] is 1 and the window still holds the 2 entries
    that were in flight when the timeout cut [cwnd]. *)
Lemma window_exceeds_floor_cwnd :
  match run_example fractional_run with
  | Some s =>
      (cwnd (reno s) == 5 # 2)%Q /\
      Z.of_nat (size (send_window s)) = 3 /\
      ~ (Z.of_nat (size (send_window s)) <=
         Z.min Common2.FLOW_CONTROL_WINDOW_SIZE (Qfloor (cwnd (reno s))))
  | None => False
  end /\
  match run_example timeout_run with
  | Some s =>
      (cwnd (reno s) == 1)%Q /\
      Z.of_nat (size (send_window s)) = 2 /\
      ~ (Z.of_nat (size (send_window s)) <=
         Z.min Common2.FLOW_CONTROL_WINDOW_SIZE (Qfloor (cwnd (reno s))))
  | None => False
  end.
Proof.
  split.
  - vm_compute. repeat split; try reflexivity. intros H. apply H. reflexivity.
  - vm_compute. repeat split; try reflexivity. intros H. apply H. reflexivity.
Qed.

(** ** The theorems at concrete inputs *)

Lemma exact_mono (x y : Q) : (x <= y)%Q -> (exact x <= exact y)%Q.
Proof. intros H. exact H. Qed.

Lemma exact_int (z : Z) : Z.abs z <= 2 ^ 53 -> (exact (inject_Z z) == inject_Z z)%Q.
Proof. intros _. reflexivity. Qed.

Example checksum_of_syn :
  fst (calculate_checksum zero_mem (set_flags SYN zero_packet)) = 65534.
Proof. vm_compute. reflexivity. Qed.

Example data_dgram_bytes :
  data_dgram 1 ["A"%byte] =
  [x01; x00; x00; x00; x00; x00; x00; x00; x00; x00; x00; x00; x01; x00; xbc; xff;
   "A"%byte; x00; x00; x00; x00].
Proof. vm_compute. reflexivity. Qed.

Lemma admission_window_bound_witness :
  let s := sender_init zero_area in
  let s' := (new_data_step zero_mem five_packet_file (fun _ => 0) s).1 in
  ((cwnd (reno s) == inject_Z 1)%Q /\
   Z.of_nat (size (send_window s)) <= Z.min Common2.FLOW_CONTROL_WINDOW_SIZE 1) /\
  Z.of_nat (size (send_window s')) <=
    Z.min Common2.FLOW_CONTROL_WINDOW_SIZE (Qfloor (cwnd (reno s'))).
Proof.
  intros s s'.
  assert (cwnd (reno s) == inject_Z 1)%Q as H1 by reflexivity.
  assert (Z.of_nat (size (send_window s)) <= Z.min Common2.FLOW_CONTROL_WINDOW_SIZE 1)
    as H2 by (vm_compute; discriminate).
  split; [split; assumption|].
  exact (proj2 (proj2 (proj2
           (admission_window_bound zero_mem five_packet_file (fun _ => 0) s))) 1 H1 H2).
Defined.

Lemma duplicate_ack_fast_retransmit_witness :
  let s := two_duplicates_state in
  (0 < send_base s /\ state (reno s) <> FAST_RECOVERY /\
   duplicate_ack_count (reno s) + 1 = 3 /\ (cwnd (reno s) <= inject_Z (2 ^ 32))%Q) /\
  exists s',
    handle_ack exact 0 s = Some s' /\
    state (reno s') = FAST_RECOVERY /\
    ssthresh (reno s') = 2 /\
    cwnd (reno s') = inject_Z (2 + 3) /\
    retransmit_seq_num s' = send_base s.
Proof.
  intros s.
  assert (0 < send_base s) as H1 by reflexivity.
  assert (state (reno s) <> FAST_RECOVERY) as H2 by discriminate.
  assert (duplicate_ack_count (reno s) + 1 = 3) as H3 by reflexivity.
  assert (cwnd (reno s) <= inject_Z (2 ^ 32))%Q as H4 by (vm_compute; discriminate).
  split; [auto|].
  destruct (proj1 (duplicate_ack_fast_retransmit exact exact_mono exact_int s 0 H1) H2 H3 H4)
    as (s' & Hs & Hst & Hss & _ & Hc & Hr & _).
  exists s'.
  assert (ssthresh (reno s') = 2) as Hss2 by (rewrite Hss; vm_compute; reflexivity).
  split; [exact Hs|]. split; [exact Hst|]. split; [exact Hss2|].
  split; [rewrite Hc, Hss2; reflexivity | exact Hr].
Defined.

Lemma reno_bounds_on_every_run_witness :
  count_acks fractional_run < 2 ^ 31 - 1 /\
  exists s,
    run_example fractional_run = Some s /\
    (1 <= cwnd (reno s))%Q /\ 2 <= ssthresh (reno s).
Proof.
  assert (count_acks fractional_run < 2 ^ 31 - 1) as H by (vm_compute; reflexivity).
  split; [exact H|].
  exact (reno_bounds_on_every_run exact exact_mono exact_int zero_mem
           (fun _ => zero_mem) 1 five_packet_file zero_area fractional_run H).
Defined.

(** A full packet: 1480 bytes of payload, so that the checksum covers the
    four bytes after the object. *)
Lemma checksum_algorithm_and_verify_witness :
  let P := set_data_len MAX_DATA_SIZE (set_seq_num 7 zero_packet) in
  let P' := set_checksum (fst (calculate_checksum zero_mem P)) P in
  let area' := (recvfrom zero_area (sendto zero_mem P' (HEADER_SIZE + data_len P'))).1 in
  (length zero_area = Z.to_nat MAX_BUFFER_SIZE /\ 0 <= data_len P <= MAX_DATA_SIZE) /\
  verify_checksum (area_beyond zero_mem area') (packet_of_area area') = true.
Proof.
  intros P P' area'.
  assert (length zero_area = Z.to_nat MAX_BUFFER_SIZE) as H1 by (vm_compute; reflexivity).
  assert (0 <= data_len P <= MAX_DATA_SIZE) as H2 by (vm_compute; split; discriminate).
  split; [split; assumption|].
  exact (proj2 (proj2 (checksum_algorithm_and_verify zero_mem P)) zero_mem zero_area H1 H2).
Defined.

(** Packets 3, 1, 2 in this order: 3 waits in the buffer, 1 is written,
    and 2 releases 3. *)
Example out_of_order_delivery :
  let r := (receiver_loop zero_mem (receiver_init zero_area)
              [data_dgram 3 ["C"%byte]; data_dgram 1 ["A"%byte]]).1 in
  let r' := (receiver_loop zero_mem r [data_dgram 2 ["B"%byte]]).1 in
  (expected_seq_num r = 2 /\ size (receive_buffer r) = 1%nat /\
   output_file r = ["A"%byte]) /\
  (expected_seq_num r' = 4 /\ size (receive_buffer r') = 0%nat /\
   output_file r' = ["A"%byte; "B"%byte; "C"%byte]).
Proof. vm_compute. repeat split; reflexivity. Qed.
